(** * A shallow embedding of the organizer's in-memory data layer

    Source: [src/twietlabs/jl.py] -- [ContactTrie], [ReminderQueue],
    [ProjectQueue], [DataManager.get_data] and the dispatch of
    [RequestHandler.do_POST].

    Modelling conventions.
    - A Python [str] is a list of Unicode code points ([N]); strings are
      compared code point by code point, as Python does.
    - [str.lower] is a builtin of the interpreter.  It is modelled after
      CPython's [do_lower] over an arbitrary case table ([CaseData]), so
      every general theorem holds whatever the table is; the rows of the
      real table that the concrete runs need are in [unicode_rows].
      [ContactTrie.delete] lowers one character at a time where the other
      methods lower the whole name, and the model keeps the two apart.
    - A dict is an association list in insertion order; the dict of a
      [TrieNode] is keyed by code point.
    - [heapq.heappush], [heapq.heapify] and [sorted] are the algorithms of
      the standard library, on lists indexed from [0].
    - A reminder's timestamp is an integer number of seconds.
    - Mutation is explicit state passing: a method that mutates [self]
      returns the new object; [do_POST] runs in a state-and-exception
      monad over the global [manager].
    - The interpreter's recursion limit is not modelled (the call stack is
      taken to be unbounded). *)

From Stdlib Require Import NArith ZArith List Bool Lia Permutation Sorting.
From Stdlib Require Import Ascii String.
From stdpp Require Import base option list sorting.

Open Scope N_scope.

(** ** Strings and the builtin [str.lower] *)

Abbreviation str := (list N).

(** The three per-character tables [str.lower] consults. *)
Record CaseData := {
  to_lower_full : N -> list N;
  is_cased : N -> bool;
  is_case_ignorable : N -> bool
}.

Section Lower.
Variable ucd : CaseData.

(** First character of [s] that is not case-ignorable. *)
Fixpoint skip_ignorable (s : str) : option N :=
  match s with
  | [] => None
  | c :: r => if is_case_ignorable ucd c then skip_ignorable r else Some c
  end.

(** [handle_capital_sigma]: [before] holds the characters preceding the
    sigma, nearest first; [after] the characters following it. *)
Definition final_sigma (before after : str) : bool :=
  match skip_ignorable before with
  | None => false
  | Some c =>
      is_cased ucd c &&
      match skip_ignorable after with
      | None => true
      | Some c' => negb (is_cased ucd c')
      end
  end.

Definition lower_char (before : str) (c : N) (after : str) : str :=
  if c =? 0x3A3
  then [if final_sigma before after then 0x3C2 else 0x3C3]
  else to_lower_full ucd c.

Fixpoint lower_from (before s : str) : str :=
  match s with
  | [] => []
  | c :: r => lower_char before c r ++ lower_from (c :: before) r
  end.

(** [s.lower()] *)
Definition lower (s : str) : str := lower_from [] s.
End Lower.

(** Rows of the Unicode case tables for Basic Latin, Latin-1, U+0130, the
    Greek alphabet and the combining diacritical marks; every other code
    point is left unchanged and uncased. *)
Definition in_range (lo hi c : N) : bool := (lo <=? c) && (c <=? hi).

Definition unicode_rows : CaseData := {|
  to_lower_full c :=
    if in_range 0x41 0x5A c then [c + 32]
    else if in_range 0xC0 0xD6 c || in_range 0xD8 0xDE c then [c + 32]
    else if c =? 0x130 then [0x69; 0x307]
    else if in_range 0x391 0x3A1 c || in_range 0x3A4 0x3A9 c then [c + 32]
    else [c];
  is_cased c :=
    in_range 0x41 0x5A c || in_range 0x61 0x7A c
    || in_range 0xC0 0xD6 c || in_range 0xD8 0xF6 c || in_range 0xF8 0xFF c
    || (c =? 0x130)
    || in_range 0x391 0x3A1 c || in_range 0x3A4 0x3A9 c || in_range 0x3B1 0x3C9 c;
  is_case_ignorable c :=
    (c =? 0x27) || (c =? 0x2E) || (c =? 0x3A) || (c =? 0x5E) || (c =? 0x60)
    || (c =? 0xA8) || (c =? 0xAD) || (c =? 0xAF) || (c =? 0xB4)
    || in_range 0xB7 0xB8 c || in_range 0x300 0x36F c
|}.

(** Python compares strings code point by code point. *)
Fixpoint str_ltb (a b : str) : bool :=
  match a, b with
  | _, [] => false
  | [], _ :: _ => true
  | x :: a', y :: b' => (x <? y) || ((x =? y) && str_ltb a' b')
  end.

Fixpoint str_eqb (a b : str) : bool :=
  match a, b with
  | [], [] => true
  | x :: a', y :: b' => (x =? y) && str_eqb a' b'
  | _, _ => false
  end.

Definition str_leb (a b : str) : bool := negb (str_ltb b a).

(** [a.startswith(p)] *)
Fixpoint starts_with (p a : str) : bool :=
  match p, a with
  | [], _ => true
  | x :: p', y :: a' => (x =? y) && starts_with p' a'
  | _ :: _, [] => false
  end.

(** ** Contacts and the trie *)

(** The dict [{'name': .., 'phone': .., 'email': ..}]. *)
Record Contact := { name : str; phone : str; email : str }.

(** [TrieNode]: [children] is a dict, kept as an association list in
    insertion order.  Its keys are the characters of a lowered name, each a
    one-code-point string, so the dict is keyed by code point. *)
Unset Elimination Schemes.
Inductive TrieNode : Type :=
  Node (contact : option Contact) (children : list (N * TrieNode)).
Set Elimination Schemes.

Definition contact (n : TrieNode) : option Contact :=
  match n with Node c _ => c end.
Definition children (n : TrieNode) : list (N * TrieNode) :=
  match n with Node _ ch => ch end.

(** [o is None] *)
Definition is_None {A} (o : option A) : bool :=
  match o with None => true | Some _ => false end.

(** [TrieNode()] *)
Definition empty_node : TrieNode := Node None [].

Section Dict.
Context {V : Type}.

(** [d.get(k)] *)
Fixpoint dict_get (k : N) (d : list (N * V)) : option V :=
  match d with
  | [] => None
  | (k', v) :: r => if k =? k' then Some v else dict_get k r
  end.

(** [d[k] = v]: replaces the value in place, or appends a new entry. *)
Fixpoint dict_set (k : N) (v : V) (d : list (N * V)) : list (N * V) :=
  match d with
  | [] => [(k, v)]
  | (k', v') :: r =>
      if k =? k' then (k', v) :: r else (k', v') :: dict_set k v r
  end.

(** [del d[k]] *)
Fixpoint dict_del (k : N) (d : list (N * V)) : list (N * V) :=
  match d with
  | [] => []
  | (k', v') :: r => if k =? k' then r else (k', v') :: dict_del k r
  end.

(** [f(d[k])], or [dflt] when [k] is not a key. *)
Definition dict_apply {B} (f : V -> B) (dflt : B) (k : N)
  : list (N * V) -> B :=
  fix go d :=
    match d with
    | [] => dflt
    | (k', v) :: r => if k =? k' then f v else go r
    end.
End Dict.

(** Python's [sorted(xs, key=..)]: the stable sort, here on keys compared
    by [leb]. *)
Section Sorted.
Context {A K : Type} (key : A -> K) (leb : K -> K -> bool).

Fixpoint insort (x : A) (l : list A) : list A :=
  match l with
  | [] => [x]
  | y :: l' => if leb (key x) (key y) then x :: l else y :: insort x l'
  end.

Definition sorted (l : list A) : list A := foldr insort [] l.
End Sorted.

(** [sorted(node.children.keys())] *)
Definition sorted_keys {V} (d : list (N * V)) : list N :=
  sorted id N.leb (map fst d).

Module ContactTrie.
Section Trie.
Variable ucd : CaseData.

(** The loop of [ContactTrie.insert] over the characters still to walk. *)
Fixpoint insert_path (node : TrieNode) (path : str) (c : Contact)
  : TrieNode :=
  match path with
  | [] => Node (Some c) (children node)
  | char :: rest =>
      let child :=
        match dict_get char (children node) with
        | Some n => n
        | None => empty_node
        end in
      Node (contact node)
           (dict_set char (insert_path child rest c) (children node))
  end.

Definition insert (root : TrieNode) (nm ph em : str) : TrieNode :=
  insert_path root (lower ucd nm) {| name := nm; phone := ph; email := em |}.

(** The loop of [ContactTrie.search]. *)
Fixpoint search_path (node : TrieNode) (path : str) : option Contact :=
  match path with
  | [] => contact node
  | char :: rest =>
      match dict_get char (children node) with
      | None => None
      | Some n => search_path n rest
      end
  end.

Definition search (root : TrieNode) (nm : str) : option Contact :=
  search_path root (lower ucd nm).

(** [char in node.children] for [char = name[index].lower()], a string
    that need not have length one. *)
Definition child_of (char : str) (node : TrieNode) : option (N * TrieNode) :=
  match char with
  | [k] => match dict_get k (children node) with
           | Some n => Some (k, n)
           | None => None
           end
  | _ => None
  end.

(** [_delete(node, name, index)], on [rest = name[index:]]; returns the
    node after the call and the flag the call returns. *)
Fixpoint _delete (node : TrieNode) (rest : str) : TrieNode * bool :=
  match rest with
  | [] =>
      match contact node with
      | None => (node, false)
      | Some _ =>
          (Node None (children node), Nat.eqb (length (children node)) 0)
      end
  | c :: rest' =>
      let char := lower ucd [c] in
      match child_of char node with
      | None => (node, false)
      | Some (k, child) =>
          let (child', should_delete) := _delete child rest' in
          if should_delete then
            let ch := dict_del k (children node) in
            (Node (contact node) ch,
             Nat.eqb (length ch) 0 && is_None (contact node))
          else
            (Node (contact node) (dict_set k child' (children node)), false)
      end
  end.

Definition delete (root : TrieNode) (nm : str) : TrieNode :=
  fst (_delete root nm).

(** [_traverse], returning what it appends to [contacts]. *)
Fixpoint _traverse (node : TrieNode) : list Contact :=
  match node with
  | Node c ch =>
      match c with Some c => [c] | None => [] end ++
      flat_map (fun k => dict_apply _traverse [] k ch) (sorted_keys ch)
  end.

Definition get_all_sorted (root : TrieNode) : list Contact :=
  _traverse root.

(** The descent loop of [search_prefix]: [None] is the early
    [return []]. *)
Fixpoint descend (node : TrieNode) (path : str) : option TrieNode :=
  match path with
  | [] => Some node
  | char :: rest =>
      match dict_get char (children node) with
      | None => None
      | Some n => descend n rest
      end
  end.

Definition search_prefix (root : TrieNode) (prefix : str) : list Contact :=
  match descend root (lower ucd prefix) with
  | None => []
  | Some node => _traverse node
  end.
End Trie.
End ContactTrie.

(** ** The standard [heapq] algorithms the two queues call *)

Module heapq.
Section Heap.
Context {A : Type} (ltb : A -> A -> bool).

(** The [while] loop of [_siftdown] and the store after it.  [pos]
    decreases at every round, so [pos] rounds are enough; with none left
    [pos] is [0] and the loop test fails. *)
Fixpoint siftdown_loop (rounds : nat) (heap : list A) (startpos pos : nat)
    (newitem : A) : list A :=
  match rounds with
  | O => <[pos := newitem]> heap
  | S rounds' =>
      if (startpos <? pos)%nat then
        let parentpos := ((pos - 1) / 2)%nat in
        match heap !! parentpos with
        | Some parent =>
            if ltb newitem parent
            then siftdown_loop rounds' (<[pos := parent]> heap)
                               startpos parentpos newitem
            else <[pos := newitem]> heap
        | None => heap
        end
      else <[pos := newitem]> heap
  end.

Definition _siftdown (heap : list A) (startpos pos : nat) : list A :=
  match heap !! pos with
  | Some newitem => siftdown_loop pos heap startpos pos newitem
  | None => heap
  end.

(** Index of the smaller child of [pos], as the loop of [_siftup] picks
    it; [None] when [pos] has no child. *)
Definition smaller_child (heap : list A) (pos : nat) : option (nat * A) :=
  let childpos := (2 * pos + 1)%nat in
  let rightpos := (childpos + 1)%nat in
  match heap !! childpos with
  | None => None
  | Some l =>
      match heap !! rightpos with
      | Some r => if ltb l r then Some (childpos, l) else Some (rightpos, r)
      | None => Some (childpos, l)
      end
  end.

(** The [while] loop of [_siftup]: bubbles the smaller child up until
    [pos] is a leaf; returns the list and the leaf.  [pos] grows at every
    round and stays below [len(heap)]. *)
Fixpoint siftup_loop (rounds : nat) (heap : list A) (pos : nat)
  : list A * nat :=
  match rounds with
  | O => (heap, pos)
  | S rounds' =>
      match smaller_child heap pos with
      | Some (childpos, child) =>
          siftup_loop rounds' (<[pos := child]> heap) childpos
      | None => (heap, pos)
      end
  end.

Definition _siftup (heap : list A) (pos : nat) : list A :=
  match heap !! pos with
  | Some newitem =>
      let (heap', leaf) := siftup_loop (length heap) heap pos in
      _siftdown (<[leaf := newitem]> heap') pos leaf
  | None => heap
  end.

Definition heappush (heap : list A) (item : A) : list A :=
  _siftdown (heap ++ [item]) 0 (length (heap ++ [item]) - 1).

(** [for i in reversed(range(n//2)): _siftup(x, i)] *)
Definition heapify (x : list A) : list A :=
  foldl _siftup x (rev (seq 0 (length x / 2))).
End Heap.
End heapq.

(** ** The two queues *)

(** [<] on the tuples [(timestamp, text)]: the first components decide
    unless they are equal. *)
Definition reminder_ltb (a b : Z * str) : bool :=
  if (a.1 =? b.1)%Z then str_ltb a.2 b.2 else (a.1 <? b.1)%Z.

Module ReminderQueue.
(** [self.heap]: a list of [(timestamp, text)]. *)
Definition t := list (Z * str).

Definition init : t := [].

Definition add (heap : t) (text : str) (timestamp : Z) : t :=
  heapq.heappush reminder_ltb heap (timestamp, text).

Definition get_all (heap : t) : list (Z * str) :=
  sorted fst Z.leb heap.

Definition remove (heap : t) (text : str) (timestamp : Z) : t :=
  heapq.heapify reminder_ltb
    (List.filter
       (fun e => negb ((e.1 =? timestamp)%Z && str_eqb e.2 text)) heap).
End ReminderQueue.

(** [<] on the tuples [(start_date, name, end_date)]. *)
Definition project_ltb (a b : str * str * str) : bool :=
  let '(s1, n1, e1) := a in
  let '(s2, n2, e2) := b in
  if str_eqb s1 s2
  then if str_eqb n1 n2 then str_ltb e1 e2 else str_ltb n1 n2
  else str_ltb s1 s2.

Module ProjectQueue.
(** [self.projects]: a list of [(start_date, name, end_date)]. *)
Definition t := list (str * str * str).

Definition init : t := [].

Definition add (projects : t) (nm start_date end_date : str) : t :=
  heapq.heappush project_ltb projects (start_date, nm, end_date).

Definition get_all (projects : t) : list (str * str * str) :=
  sorted (fun x => x.1.1) str_leb projects.

Definition remove (projects : t) (nm start_date : str) : t :=
  heapq.heapify project_ltb
    (List.filter
       (fun x => negb (str_eqb x.1.2 nm && str_eqb x.1.1 start_date))
       projects).
End ProjectQueue.

(** ** The manager and the request dispatch *)

Record DataManager := {
  contacts : TrieNode;
  reminders : ReminderQueue.t;
  projects : ProjectQueue.t
}.

(** [DataManager()] *)
Definition new_manager : DataManager :=
  {| contacts := empty_node;
     reminders := ReminderQueue.init;
     projects := ProjectQueue.init |}.

(** The entries of the lists [get_data] builds. *)
Record ReminderRow := { text : str; time : Z }.
Record ProjectRow := { project_name : str; start : str; end_ : str }.

Record Data := {
  data_contacts : list Contact;
  data_reminders : list ReminderRow;
  data_projects : list ProjectRow
}.

(** [{'text': t, 'time': ts} for ts, t in ..] *)
Definition reminder_row (x : Z * str) : ReminderRow :=
  {| text := x.2; time := x.1 |}.

(** [{'name': n, 'start': s, 'end': e} for s, n, e in ..] *)
Definition project_row (x : str * str * str) : ProjectRow :=
  {| project_name := x.1.2; start := x.1.1; end_ := x.2 |}.

Definition get_data (m : DataManager) : Data :=
  {| data_contacts := ContactTrie.get_all_sorted (contacts m);
     data_reminders := map reminder_row (ReminderQueue.get_all (reminders m));
     data_projects := map project_row (ProjectQueue.get_all (projects m)) |}.

(** A Python string literal. *)
Definition lit (s : string) : str :=
  map (fun a => N_of_ascii a) (list_ascii_of_string s).

(** The decoded request body [data].  A field is [None] when the key is
    missing; a field that is present holds a value of the type the
    interface gives it (strings, and an integer [timestamp]). *)
Record Request := {
  action : option str;
  req_name : option str;
  req_phone : option str;
  req_email : option str;
  req_text : option str;
  req_timestamp : option Z;
  req_start : option str;
  req_end : option str
}.

(** The uncaught exception of a failed [data[key]]. *)
Inductive exn := KeyError (key : str).

Inductive outcome (A : Type) :=
| Returned (a : A)
| Raised (e : exn).
Arguments Returned {A} a.
Arguments Raised {A} e.

(** Computations over the global [manager] that may raise. *)
Definition Handler (A : Type) : Type :=
  DataManager -> DataManager * outcome A.

Definition ret {A} (a : A) : Handler A := fun m => (m, Returned a).

Definition bind {A B} (c : Handler A) (k : A -> Handler B) : Handler B :=
  fun m =>
    match c m with
    | (m', Returned a) => k a m'
    | (m', Raised e) => (m', Raised e)
    end.

Definition raise {A} (e : exn) : Handler A := fun m => (m, Raised e).

Definition read {A} (f : DataManager -> A) : Handler A :=
  fun m => (m, Returned (f m)).

Definition update (f : DataManager -> DataManager) : Handler unit :=
  fun m => (f m, Returned tt).

Declare Scope handler_scope.
Delimit Scope handler_scope with handler.
Notation "'let*' x ':=' c 'in' k" := (bind c (fun x => k))
  (at level 10, x name, c at level 100, k at level 200) : handler_scope.

(** [data[key]] *)
Definition item {A} (key : string) (field : option A) : Handler A :=
  match field with
  | Some v => ret v
  | None => raise (KeyError (lit key))
  end.

Definition with_contacts (f : TrieNode -> TrieNode) (m : DataManager) :=
  {| contacts := f (contacts m);
     reminders := reminders m;
     projects := projects m |}.

Definition with_reminders (f : ReminderQueue.t -> ReminderQueue.t)
    (m : DataManager) :=
  {| contacts := contacts m;
     reminders := f (reminders m);
     projects := projects m |}.

Definition with_projects (f : ProjectQueue.t -> ProjectQueue.t)
    (m : DataManager) :=
  {| contacts := contacts m;
     reminders := reminders m;
     projects := f (projects m) |}.

(** [action == 'tag']; a missing [action] is [None] and equals no tag. *)
Definition is_action (a : option str) (tag : string) : bool :=
  match a with
  | Some s => str_eqb s (lit tag)
  | None => false
  end.

Section Dispatch.
Variable ucd : CaseData.
Open Scope handler_scope.

(** The [if]/[elif] chain of [do_POST]. *)
Definition dispatch (data : Request) : Handler unit :=
  let a := action data in
  if is_action a "add_contact" then
    let* n := item "name" (req_name data) in
    let* p := item "phone" (req_phone data) in
    let* e := item "email" (req_email data) in
    update (with_contacts (fun t => ContactTrie.insert ucd t n p e))
  else if is_action a "delete_contact" then
    let* n := item "name" (req_name data) in
    update (with_contacts (fun t => ContactTrie.delete ucd t n))
  else if is_action a "add_reminder" then
    let* x := item "text" (req_text data) in
    let* ts := item "timestamp" (req_timestamp data) in
    update (with_reminders (fun q => ReminderQueue.add q x ts))
  else if is_action a "delete_reminder" then
    let* x := item "text" (req_text data) in
    let* ts := item "timestamp" (req_timestamp data) in
    update (with_reminders (fun q => ReminderQueue.remove q x ts))
  else if is_action a "add_project" then
    let* n := item "name" (req_name data) in
    let* s := item "start" (req_start data) in
    let* e := item "end" (req_end data) in
    update (with_projects (fun q => ProjectQueue.add q n s e))
  else if is_action a "delete_project" then
    let* n := item "name" (req_name data) in
    let* s := item "start" (req_start data) in
    update (with_projects (fun q => ProjectQueue.remove q n s))
  else ret tt.

(** [do_POST]: the dispatch, then the response body [manager.get_data()]. *)
Definition do_POST (data : Request) : Handler Data :=
  let* _ := dispatch data in read get_data.

(** The manager after the server has handled [reqs] in turn; a request
    that raises leaves the manager as the exception found it. *)
Definition serve (reqs : list Request) (m : DataManager) : DataManager :=
  foldl (fun m r => fst (do_POST r m)) m reqs.
End Dispatch.




(** ** Notions the properties are stated with *)

(** The case-folded name of a stored contact. *)
Definition folded (ucd : CaseData) (c : Contact) : str := lower ucd (name c).

(** The shape [insert] gives the trie: at every node the keys of
    [children] are distinct and a contact sits at the end of the path its
    lowered name spells.  [rpath] is the path from the root, last character
    first. *)
Inductive wf_node (ucd : CaseData) : str -> TrieNode -> Prop :=
| wf_Node rpath c ch :
    (forall x, c = Some x -> folded ucd x = rev rpath) ->
    NoDup (map fst ch) ->
    (forall k n, (k, n) ∈ ch -> wf_node ucd (k :: rpath) n) ->
    wf_node ucd rpath (Node c ch).

(** The path [_delete] walks for [name]: the lowering of each character on
    its own, when each is a single character. *)
Fixpoint delete_path (ucd : CaseData) (nm : str) : option str :=
  match nm with
  | [] => Some []
  | c :: r =>
      match lower ucd [c] with
      | [k] => option_map (cons k) (delete_path ucd r)
      | _ => None
      end
  end.

(** Calls on a [ContactTrie], and the trie after a sequence of them. *)
Inductive TrieCall :=
| CallInsert (nm ph em : str)
| CallDelete (nm : str).

Definition trie_call (ucd : CaseData) (t : TrieNode) (c : TrieCall)
  : TrieNode :=
  match c with
  | CallInsert nm ph em => ContactTrie.insert ucd t nm ph em
  | CallDelete nm => ContactTrie.delete ucd t nm
  end.

Definition trie_after (ucd : CaseData) (calls : list TrieCall) : TrieNode :=
  foldl (trie_call ucd) empty_node calls.

(** The trie after a sequence of [insert] calls, each [(name, phone,
    email)], and the record the last call with folded name [k] passed. *)
Definition insert_all (ucd : CaseData) (calls : list (str * str * str))
  : TrieNode :=
  foldl (fun t x => ContactTrie.insert ucd t x.1.1 x.1.2 x.2) empty_node calls.

Definition latest (ucd : CaseData) (k : str) (calls : list (str * str * str))
  : option Contact :=
  foldl (fun found x =>
           if str_eqb (lower ucd x.1.1) k
           then Some {| name := x.1.1; phone := x.1.2; email := x.2 |}
           else found)
        None calls.

(** The contacts listed below the child stored under [k]. *)
Definition block (ch : list (N * TrieNode)) (k : N) : list Contact :=
  match dict_get k ch with
  | Some n => ContactTrie._traverse n
  | None => []
  end.

(** The six request bodies the client sends. *)
Definition no_fields (tag : string) : Request :=
  {| action := Some (lit tag);
     req_name := None; req_phone := None; req_email := None;
     req_text := None; req_timestamp := None;
     req_start := None; req_end := None |}.

Definition add_contact (nm ph em : str) : Request :=
  {| action := Some (lit "add_contact");
     req_name := Some nm; req_phone := Some ph; req_email := Some em;
     req_text := None; req_timestamp := None;
     req_start := None; req_end := None |}.

Definition delete_contact (nm : str) : Request :=
  {| action := Some (lit "delete_contact");
     req_name := Some nm; req_phone := None; req_email := None;
     req_text := None; req_timestamp := None;
     req_start := None; req_end := None |}.

Definition add_reminder (x : str) (ts : Z) : Request :=
  {| action := Some (lit "add_reminder");
     req_name := None; req_phone := None; req_email := None;
     req_text := Some x; req_timestamp := Some ts;
     req_start := None; req_end := None |}.

Definition delete_reminder (x : str) (ts : Z) : Request :=
  {| action := Some (lit "delete_reminder");
     req_name := None; req_phone := None; req_email := None;
     req_text := Some x; req_timestamp := Some ts;
     req_start := None; req_end := None |}.

Definition add_project (nm s e : str) : Request :=
  {| action := Some (lit "add_project");
     req_name := Some nm; req_phone := None; req_email := None;
     req_text := None; req_timestamp := None;
     req_start := Some s; req_end := Some e |}.

Definition delete_project (nm s : str) : Request :=
  {| action := Some (lit "delete_project");
     req_name := Some nm; req_phone := None; req_email := None;
     req_text := None; req_timestamp := None;
     req_start := Some s; req_end := None |}.

(** The fields of a request, the ones each operation reads, and the six
    recognized tags. *)
Inductive Field :=
  FName | FPhone | FEmail | FText | FTimestamp | FStart | FEnd.

Definition field_key (f : Field) : string :=
  match f with
  | FName => "name" | FPhone => "phone" | FEmail => "email"
  | FText => "text" | FTimestamp => "timestamp"
  | FStart => "start" | FEnd => "end"
  end.

Definition has_field (data : Request) (f : Field) : bool :=
  match f with
  | FName => negb (is_None (req_name data))
  | FPhone => negb (is_None (req_phone data))
  | FEmail => negb (is_None (req_email data))
  | FText => negb (is_None (req_text data))
  | FTimestamp => negb (is_None (req_timestamp data))
  | FStart => negb (is_None (req_start data))
  | FEnd => negb (is_None (req_end data))
  end.

Definition operations : list (string * list Field) :=
  [ ("add_contact"%string, [FName; FPhone; FEmail]);
    ("delete_contact"%string, [FName]);
    ("add_reminder"%string, [FText; FTimestamp]);
    ("delete_reminder"%string, [FText; FTimestamp]);
    ("add_project"%string, [FName; FStart; FEnd]);
    ("delete_project"%string, [FName; FStart]) ].

Definition recognized (a : option str) : bool :=
  existsb (fun op => is_action a op.1) operations.

(** The fields the operation tagged [a] requires. *)
Definition required_fields (a : option str) : list Field :=
  match List.find (fun op => is_action a op.1) operations with
  | Some op => op.2
  | None => []
  end.

(** The first required field the request lacks. *)
Definition missing_field (data : Request) : option Field :=
  List.find (fun f => negb (has_field data f))
            (required_fields (action data)).

(** The rows a [delete_reminder] or [delete_project] request names. *)
Definition reminder_matches (x : str) (ts : Z) (r : ReminderRow) : bool :=
  (time r =? ts)%Z && str_eqb (text r) x.

Definition project_matches (nm s : str) (r : ProjectRow) : bool :=
  str_eqb (project_name r) nm && str_eqb (start r) s.

(** The heap invariant of [heapq] on the positions from [lo] on: no
    element is below its parent. *)
Definition child (i c : nat) : Prop := (c = 2 * i + 1 \/ c = 2 * i + 2)%nat.

Definition edge_ok {A} (ltb : A -> A -> bool) (h : list A) (i c : nat)
  : Prop :=
  forall x y, h !! i = Some x -> h !! c = Some y -> ltb y x = false.

Definition is_heap_from {A} (ltb : A -> A -> bool) (lo : nat) (h : list A)
  : Prop :=
  forall i c, (lo <= i)%nat -> child i c -> edge_ok ltb h i c.

(** [pos] lies in the subtree rooted at [start]. *)
Inductive descends (start : nat) : nat -> Prop :=
| descends_here : descends start start
| descends_child i c : descends start i -> child i c -> descends start c.

(** The state of the loop of [_siftdown] while [x] travels up from a hole
    at [pos]: the edges that do not enter the hole are in order, [x] is not
    above the children of the hole, and neither is the parent of the
    hole. *)
Definition hole_ok {A} (ltb : A -> A -> bool) (start : nat) (x : A)
    (h : list A) (pos : nat) : Prop :=
  (pos < length h)%nat
  /\ descends start pos
  /\ (forall i c, (start <= i)%nat -> child i c -> c <> pos ->
                  edge_ok ltb h i c)
  /\ (forall c y, child pos c -> h !! c = Some y -> ltb y x = false)
  /\ ((start < pos)%nat ->
      forall c y p, child pos c -> h !! c = Some y ->
                    h !! ((pos - 1) / 2)%nat = Some p -> ltb y p = false).

(** The state of the loop of [_siftup] below [start]: every edge is in
    order, except that the edges leaving [start] wait until the hole has
    moved off it. *)
Definition sinking_ok {A} (ltb : A -> A -> bool) (start : nat) (h : list A)
    (pos : nat) : Prop :=
  (pos < length h)%nat
  /\ descends start pos
  /\ (forall i c, (start <= i)%nat -> child i c ->
                  (i = start -> pos <> start) -> edge_ok ltb h i c).

(** The state of the loop of [_siftup] run on a list [h] that is a heap
    already, with [x = h[start]]: [g] is [h] with the path to [pos] moved
    up one step, and sifting [x] back from [pos] restores [h]. *)
Definition retraces {A} (ltb : A -> A -> bool) (start : nat) (x : A)
    (h g : list A) (pos : nat) : Prop :=
  (pos < length g)%nat
  /\ descends start pos
  /\ (forall j, (pos <= j)%nat -> g !! j = h !! j)
  /\ (forall v, h !! pos = Some v -> ltb v x = false)
  /\ ((start < pos)%nat -> g !! ((pos - 1) / 2)%nat = h !! pos)
  /\ heapq.siftdown_loop ltb pos g start pos x = h.

(** Both queues hold heaps. *)
Definition heaps_ok (m : DataManager) : Prop :=
  is_heap_from reminder_ltb 0 (reminders m)
  /\ is_heap_from project_ltb 0 (projects m).


(** Case analysis over the [if]/[elif] chain of [do_POST] and the fields
    it reads. *)
Ltac case_action :=
  match goal with
  | |- context [is_action ?a ?tag] => destruct (is_action a tag) eqn:?
  end.

Ltac case_field :=
  match goal with
  | |- context [item _ (?f ?data)] => destruct (f data) eqn:?
  end.

Ltac run_dispatch :=
  unfold do_POST, dispatch, bind; repeat case_action;
  repeat (case_field; simpl).

(** A trie without dead branches: every node below the root holds a
    contact or has a child. *)
Inductive pruned : TrieNode -> Prop :=
| pruned_Node c ch :
    (forall k n, (k, n) ∈ ch -> n <> empty_node) ->
    (forall k n, (k, n) ∈ ch -> pruned n) ->
    pruned (Node c ch).

(** [len(node.children) == 0 and node.contact is None] *)
Definition is_empty (n : TrieNode) : bool :=
  Nat.eqb (length (children n)) 0 && is_None (contact n).



(** What the requests say the queues should hold, kept as plain lists:
    an add puts a row in front, a delete drops the rows it names, and a
    request that lacks a field or bears another tag does nothing. *)
Definition reminder_log_step (rows : list ReminderRow) (data : Request)
  : list ReminderRow :=
  match req_text data, req_timestamp data with
  | Some x, Some ts =>
      if is_action (action data) "add_reminder"
      then {| text := x; time := ts |} :: rows
      else if is_action (action data) "delete_reminder"
      then List.filter (fun r => negb (reminder_matches x ts r)) rows
      else rows
  | _, _ => rows
  end.

Definition project_log_step (rows : list ProjectRow) (data : Request)
  : list ProjectRow :=
  if is_action (action data) "add_project" then
    match req_name data, req_start data, req_end data with
    | Some nm, Some s, Some e =>
        {| project_name := nm; start := s; end_ := e |} :: rows
    | _, _, _ => rows
    end
  else if is_action (action data) "delete_project" then
    match req_name data, req_start data with
    | Some nm, Some s =>
        List.filter (fun r => negb (project_matches nm s r)) rows
    | _, _ => rows
    end
  else rows.

(** A request that can change the store: its tag is one of the six and
    it lacks no field the tag reads. *)
Definition effective (data : Request) : bool :=
  recognized (action data) && is_None (missing_field data).

(** * Properties *)

(** ** String comparison *)

Lemma str_eqb_eq (a b : str) : str_eqb a b = true <-> a = b.
Proof.
  revert b; induction a as [|x a IH]; intros [|y b]; simpl; try easy.
  rewrite andb_true_iff, N.eqb_eq, IH. split.
  - intros [-> ->]; reflexivity.
  - intros [= -> ->]; auto.
Qed.

Lemma str_eqb_refl (a : str) : str_eqb a a = true.
Proof. apply str_eqb_eq; reflexivity. Qed.

Lemma str_eqb_neq (a b : str) : str_eqb a b = false <-> a <> b.
Proof.
  rewrite <- str_eqb_eq. destruct (str_eqb a b); split; congruence.
Qed.

Lemma str_ltb_irrefl (a : str) : str_ltb a a = false.
Proof.
  induction a as [|x a IH]; simpl; [reflexivity|].
  rewrite N.ltb_irrefl, N.eqb_refl, IH. reflexivity.
Qed.

Lemma str_ltb_trans (a b c : str) :
  str_ltb a b = true -> str_ltb b c = true -> str_ltb a c = true.
Proof.
  revert b c; induction a as [|x a IH]; intros [|y b] [|z c]; simpl;
    try easy.
  rewrite !orb_true_iff, !andb_true_iff, !N.ltb_lt, !N.eqb_eq.
  intros [Hxy|[-> Hab]] [Hyz|[-> Hbc]]; eauto with lia.
Qed.

(** Trichotomy: two strings neither of which is below the other are the
    same string. *)
Lemma str_ltb_antisym (a b : str) :
  str_ltb a b = false -> str_ltb b a = false -> a = b.
Proof.
  revert b; induction a as [|x a IH]; intros [|y b]; simpl; try easy.
  rewrite !orb_false_iff, !andb_false_iff, !N.ltb_ge, !N.eqb_neq.
  intros [Hyx Hab] [Hxy Hba].
  assert (x = y) by lia; subst y.
  f_equal. apply IH; [destruct Hab|destruct Hba]; congruence.
Qed.

Lemma str_ltb_asym (a b : str) : str_ltb a b = true -> str_ltb b a = false.
Proof.
  intros H. destruct (str_ltb b a) eqn:E; [|reflexivity].
  pose proof (str_ltb_trans _ _ _ H E) as F.
  rewrite str_ltb_irrefl in F. discriminate.
Qed.

Lemma str_leb_total (a b : str) : str_leb a b = true \/ str_leb b a = true.
Proof.
  unfold str_leb. destruct (str_ltb b a) eqn:E; [right|left; reflexivity].
  rewrite (str_ltb_asym _ _ E). reflexivity.
Qed.

Lemma str_leb_trans (a b c : str) :
  str_leb a b = true -> str_leb b c = true -> str_leb a c = true.
Proof.
  unfold str_leb. rewrite !negb_true_iff. intros Hba Hcb.
  destruct (str_ltb c a) eqn:Hca; [|reflexivity].
  destruct (str_ltb a b) eqn:Hab.
  - rewrite (str_ltb_trans _ _ _ Hca Hab) in Hcb. discriminate.
  - rewrite (str_ltb_antisym _ _ Hab Hba) in Hca. congruence.
Qed.

Lemma str_ltb_app (p a b : str) : str_ltb (p ++ a) (p ++ b) = str_ltb a b.
Proof.
  induction p as [|x p IH]; simpl; [reflexivity|].
  rewrite N.ltb_irrefl, N.eqb_refl, IH. reflexivity.
Qed.

Lemma str_ltb_nil_cons (x : N) (a : str) : str_ltb [] (x :: a) = true.
Proof. reflexivity. Qed.

Lemma str_ltb_cons_lt (x y : N) (a b : str) :
  x < y -> str_ltb (x :: a) (y :: b) = true.
Proof. intros H. simpl. apply N.ltb_lt in H. rewrite H. reflexivity. Qed.

Lemma starts_with_app (p a : str) : starts_with p (p ++ a) = true.
Proof.
  induction p as [|x p IH]; simpl; [reflexivity|].
  rewrite N.eqb_refl, IH. reflexivity.
Qed.

Lemma starts_with_app_inv (p q a : str) :
  starts_with (p ++ q) (p ++ a) = starts_with q a.
Proof.
  induction p as [|x p IH]; simpl; [reflexivity|].
  rewrite N.eqb_refl, IH. reflexivity.
Qed.

Lemma starts_with_spec (p a : str) :
  starts_with p a = true <-> exists r, a = p ++ r.
Proof.
  revert a; induction p as [|x p IH]; intros a; simpl.
  - split; eauto.
  - destruct a as [|y a].
    + split; [discriminate|]. intros [r [=]].
    + rewrite andb_true_iff, N.eqb_eq, IH. split.
      * intros [-> [r ->]]. eauto.
      * intros [r [= -> ->]]. eauto.
Qed.

(** ** Dictionaries *)

Section DictFacts.
Context {V : Type}.
Implicit Types (d : list (N * V)) (k : N) (v : V).

Lemma dict_get_set_eq k v d : dict_get k (dict_set k v d) = Some v.
Proof.
  induction d as [|[k' v'] d IH]; simpl.
  - rewrite N.eqb_refl. reflexivity.
  - destruct (k =? k') eqn:E; simpl; rewrite E; auto.
Qed.

Lemma dict_get_set_ne k k' v d :
  k <> k' -> dict_get k' (dict_set k v d) = dict_get k' d.
Proof.
  intros Hne. induction d as [|[k0 v0] d IH]; simpl.
  - apply N.eqb_neq in Hne. rewrite N.eqb_sym, Hne. reflexivity.
  - destruct (k =? k0) eqn:E; simpl.
    + apply N.eqb_eq in E; subst k0.
      apply N.eqb_neq in Hne. rewrite N.eqb_sym, Hne. reflexivity.
    + rewrite IH. reflexivity.
Qed.

Lemma dict_set_same k v d : dict_get k d = Some v -> dict_set k v d = d.
Proof.
  induction d as [|[k' v'] d IH]; simpl; [discriminate|].
  destruct (k =? k') eqn:E.
  - intros [= ->]. reflexivity.
  - intros H. rewrite IH; auto.
Qed.

Lemma dict_get_None k d : dict_get k d = None <-> k ∉ map fst d.
Proof.
  induction d as [|[k' v'] d IH]; simpl.
  - split; [intros _; apply not_elem_of_nil | reflexivity].
  - rewrite not_elem_of_cons. destruct (k =? k') eqn:E.
    + apply N.eqb_eq in E. split; [discriminate|]. intros [? _]. congruence.
    + apply N.eqb_neq in E. rewrite IH. tauto.
Qed.

Lemma dict_get_Some_elem k v d : dict_get k d = Some v -> (k, v) ∈ d.
Proof.
  induction d as [|[k' v'] d IH]; simpl; [discriminate|].
  destruct (k =? k') eqn:E.
  - apply N.eqb_eq in E. intros [= ->]. subst. left.
  - intros H. right. auto.
Qed.

Lemma dict_elem_get k v d :
  NoDup (map fst d) -> (k, v) ∈ d -> dict_get k d = Some v.
Proof.
  induction d as [|[k' v'] d IH]; simpl; intros Hnd Hin.
  - inversion Hin.
  - apply NoDup_cons in Hnd as [Hk' Hnd].
    apply elem_of_cons in Hin as [[= -> ->]|Hin].
    + rewrite N.eqb_refl. reflexivity.
    + destruct (k =? k') eqn:E; [|auto].
      apply N.eqb_eq in E; subst k'. exfalso; apply Hk'.
      apply list_elem_of_fmap. exists (k, v). auto.
Qed.

Lemma dict_get_is_key k d : k ∈ map fst d -> is_Some (dict_get k d).
Proof.
  intros Hin. destruct (dict_get k d) eqn:E; [eauto|].
  apply dict_get_None in E. contradiction.
Qed.

Lemma dict_set_keys k v d :
  map fst (dict_set k v d) =
  match dict_get k d with
  | Some _ => map fst d
  | None => map fst d ++ [k]
  end.
Proof.
  induction d as [|[k' v'] d IH]; simpl; [reflexivity|].
  destruct (k =? k') eqn:E; simpl; [reflexivity|].
  rewrite IH. destruct (dict_get k d); reflexivity.
Qed.

Lemma dict_set_NoDup k v d :
  NoDup (map fst d) -> NoDup (map fst (dict_set k v d)).
Proof.
  intros Hnd. rewrite dict_set_keys.
  destruct (dict_get k d) eqn:E; [assumption|].
  apply dict_get_None in E.
  apply NoDup_app. split; [assumption|]. split.
  - intros x Hx Hx'. apply list_elem_of_singleton in Hx'. congruence.
  - apply NoDup_singleton.
Qed.

Lemma dict_set_elem k v k' v' d :
  (k', v') ∈ dict_set k v d -> (k' = k /\ v' = v) \/ (k', v') ∈ d.
Proof.
  induction d as [|[k0 v0] d IH]; simpl.
  - intros H. apply list_elem_of_singleton in H as [= -> ->]. auto.
  - destruct (k =? k0) eqn:E.
    + apply N.eqb_eq in E; subst k0.
      intros H. apply elem_of_cons in H as [[= -> ->]|H]; [auto|].
      right; right; assumption.
    + intros H. apply elem_of_cons in H as [[= -> ->]|H].
      * right; left.
      * destruct (IH H); [auto|]. right; right; assumption.
Qed.

Lemma dict_del_elem k k' v' d : (k', v') ∈ dict_del k d -> (k', v') ∈ d.
Proof.
  induction d as [|[k0 v0] d IH]; simpl; [auto|].
  destruct (k =? k0).
  - intros H; right; assumption.
  - intros H. apply elem_of_cons in H as [->|H]; [left|right; auto].
Qed.

Lemma dict_del_keys_sub k d x : x ∈ map fst (dict_del k d) -> x ∈ map fst d.
Proof.
  intros H. apply list_elem_of_fmap in H as [[k' v'] [-> H]].
  apply list_elem_of_fmap. exists (k', v'). split; [reflexivity|].
  eapply dict_del_elem; eassumption.
Qed.

Lemma dict_del_NoDup k d : NoDup (map fst d) -> NoDup (map fst (dict_del k d)).
Proof.
  induction d as [|[k0 v0] d IH]; simpl; [auto|].
  intros Hnd. apply NoDup_cons in Hnd as [Hk Hnd].
  destruct (k =? k0); [assumption|]. simpl.
  apply NoDup_cons. split; [|auto].
  intros Hin. apply Hk. eapply dict_del_keys_sub; eassumption.
Qed.

Lemma dict_get_del_ne k k' d :
  k <> k' -> dict_get k' (dict_del k d) = dict_get k' d.
Proof.
  intros Hne. induction d as [|[k0 v0] d IH]; simpl; [reflexivity|].
  destruct (k =? k0) eqn:E.
  - apply N.eqb_eq in E; subst k0.
    apply N.eqb_neq in Hne. rewrite N.eqb_sym, Hne. reflexivity.
  - simpl. rewrite IH. reflexivity.
Qed.

Lemma dict_get_del_eq k d :
  NoDup (map fst d) -> dict_get k (dict_del k d) = None.
Proof.
  induction d as [|[k0 v0] d IH]; simpl; [reflexivity|].
  intros Hnd. apply NoDup_cons in Hnd as [Hk Hnd].
  destruct (k =? k0) eqn:E.
  - apply N.eqb_eq in E; subst k0. apply dict_get_None. assumption.
  - simpl. rewrite E. auto.
Qed.

Lemma dict_apply_get {B} (f : V -> B) (dflt : B) k d :
  dict_apply f dflt k d =
  match dict_get k d with Some v => f v | None => dflt end.
Proof.
  induction d as [|[k' v'] d IH]; simpl; [reflexivity|].
  destruct (k =? k'); auto.
Qed.
End DictFacts.

(** ** [sorted] *)

Section SortedFacts.
Context {A K : Type} (key : A -> K) (leb : K -> K -> bool).

Local Abbreviation R := (fun a b : A => leb (key a) (key b) = true).

Lemma insort_Permutation x l : insort key leb x l ≡ₚ x :: l.
Proof.
  induction l as [|y l IH]; simpl; [reflexivity|].
  destruct (leb (key x) (key y)); [reflexivity|].
  rewrite IH. apply Permutation_swap.
Qed.

Lemma sorted_Permutation l : sorted key leb l ≡ₚ l.
Proof.
  induction l as [|x l IH]; simpl; [reflexivity|].
  rewrite insort_Permutation, IH. reflexivity.
Qed.

Hypothesis leb_total : forall a b, leb a b = true \/ leb b a = true.
Hypothesis leb_trans :
  forall a b c, leb a b = true -> leb b c = true -> leb a c = true.

Lemma insort_StronglySorted x l :
  StronglySorted R l -> StronglySorted R (insort key leb x l).
Proof.
  induction l as [|y l IH]; simpl; intros Hs.
  - repeat constructor.
  - apply StronglySorted_inv in Hs as [Hs Hy].
    destruct (leb (key x) (key y)) eqn:E.
    + constructor; [constructor; assumption|].
      constructor; [exact E|].
      eapply Forall_impl; [exact Hy|]. intros z Hz. simpl in *; eauto.
    + constructor; [auto|].
      rewrite insort_Permutation. constructor; [|assumption].
      destruct (leb_total (key x) (key y)); congruence.
Qed.

Lemma sorted_StronglySorted l : StronglySorted R (sorted key leb l).
Proof.
  induction l as [|x l IH]; simpl; [constructor|].
  apply insort_StronglySorted; assumption.
Qed.
End SortedFacts.

Lemma sorted_keys_Permutation {V} (d : list (N * V)) :
  sorted_keys d ≡ₚ map fst d.
Proof. apply sorted_Permutation. Qed.

Lemma sorted_keys_NoDup {V} (d : list (N * V)) :
  NoDup (map fst d) -> NoDup (sorted_keys d).
Proof. intros H. rewrite sorted_keys_Permutation. assumption. Qed.

Lemma sorted_keys_increasing {V} (d : list (N * V)) :
  NoDup (map fst d) -> StronglySorted N.lt (sorted_keys d).
Proof.
  intros Hnd. apply sorted_keys_NoDup in Hnd.
  assert (Hs : StronglySorted (fun a b => (id a <=? id b) = true)
                 (sorted_keys d)).
  { apply sorted_StronglySorted.
    - intros a b. rewrite !N.leb_le. lia.
    - intros a b c. rewrite !N.leb_le. lia. }
  induction Hs as [|x l Hs IH Hx]; [constructor|].
  apply NoDup_cons in Hnd as [Hx' Hnd].
  constructor; [auto|].
  apply Forall_forall. intros y Hy.
  rewrite Forall_forall in Hx. specialize (Hx y Hy).
  apply N.leb_le in Hx. unfold id in Hx.
  assert (x <> y) by (intros ->; contradiction). lia.
Qed.

(** A strictly sorted concatenation of blocks: the blocks are sorted and
    lie in the order of their keys. *)
Lemma StronglySorted_flat_map {B} (R : relation B) (f : N -> list B)
    (ks : list N) :
  StronglySorted N.lt ks ->
  (forall k, k ∈ ks -> StronglySorted R (f k)) ->
  (forall k1 k2 x1 x2,
      k1 ∈ ks -> k2 ∈ ks -> k1 < k2 -> x1 ∈ f k1 -> x2 ∈ f k2 -> R x1 x2) ->
  StronglySorted R (flat_map f ks).
Proof.
  intros Hs. induction Hs as [|k ks Hs IH Hk]; intros Hblock Hcross; simpl.
  - constructor.
  - apply StronglySorted_app. split; [|split].
    + intros x1 x2 Hx1 Hx2.
      apply list_elem_of_In, in_flat_map in Hx2 as [k2 [Hk2 Hx2]].
      apply list_elem_of_In in Hk2, Hx2.
      rewrite Forall_forall in Hk.
      eapply (Hcross k k2); eauto; [left | right; assumption].
    + apply Hblock. left.
    + apply IH.
      * intros k' Hk'. apply Hblock. right; assumption.
      * intros k1 k2 x1 x2 H1 H2. apply Hcross; right; assumption.
Qed.

(** Among distinct keys only the block of [k] survives. *)
Lemma flat_map_single {B} (g : N -> list B) (k : N) (ks : list N) :
  NoDup ks ->
  (forall k', k' ∈ ks -> k' <> k -> g k' = []) ->
  flat_map g ks = if decide (k ∈ ks) then g k else [].
Proof.
  induction ks as [|k0 ks IH]; simpl; intros Hnd Hg.
  - destruct (decide (k ∈ [])) as [H|H]; [inversion H|reflexivity].
  - apply NoDup_cons in Hnd as [Hk0 Hnd].
    rewrite IH; [|assumption|intros; apply Hg; [right|]; assumption].
    destruct (decide (k0 = k)) as [->|Hne].
    + destruct (decide (k ∈ ks)); [contradiction|].
      destruct (decide (k ∈ k :: ks)) as [_|H]; [apply app_nil_r|].
      exfalso; apply H; left.
    + rewrite (Hg k0); [|left|assumption]. simpl.
      destruct (decide (k ∈ ks)) as [H|H];
        destruct (decide (k ∈ k0 :: ks)) as [H'|H']; try reflexivity.
      * exfalso; apply H'; right; assumption.
      * apply elem_of_cons in H' as [->|H']; [congruence|contradiction].
Qed.

(** ** The trie *)

Section TrieFacts.
Variable ucd : CaseData.

Local Abbreviation insert_path := ContactTrie.insert_path.
Local Abbreviation search_path := ContactTrie.search_path.
Local Abbreviation _delete := (ContactTrie._delete ucd).
Local Abbreviation _traverse := ContactTrie._traverse.
Local Abbreviation descend := ContactTrie.descend.

Lemma search_path_empty q : search_path empty_node q = None.
Proof. destruct q; reflexivity. Qed.

Lemma wf_empty rp : wf_node ucd rp empty_node.
Proof.
  constructor; [discriminate|constructor|].
  intros k n H. inversion H.
Qed.

Lemma wf_child rp c ch k n :
  wf_node ucd rp (Node c ch) -> dict_get k ch = Some n ->
  wf_node ucd (k :: rp) n.
Proof.
  intros Hwf Hget. inversion Hwf; subst.
  eauto using dict_get_Some_elem.
Qed.

(** [insert] writes one path and leaves every other path as it was. *)
Lemma search_insert_path p : forall n c q,
  search_path (insert_path n p c) q =
  if decide (q = p) then Some c else search_path n q.
Proof.
  induction p as [|k p IH]; intros [c0 ch] c q; simpl.
  - destruct q; reflexivity.
  - destruct q as [|k' q]; simpl; [reflexivity|].
    destruct (decide (k' = k)) as [->|Hne].
    + rewrite dict_get_set_eq, IH.
      destruct (decide (q = p)) as [->|Hq].
      * rewrite decide_True; reflexivity.
      * rewrite decide_False by congruence.
        destruct (dict_get k ch); [reflexivity|apply search_path_empty].
    + rewrite dict_get_set_ne by congruence.
      rewrite decide_False by congruence. reflexivity.
Qed.

Lemma wf_insert_path p : forall rp n c,
  wf_node ucd rp n -> folded ucd c = rev rp ++ p ->
  wf_node ucd rp (insert_path n p c).
Proof.
  induction p as [|k p IH]; intros rp [c0 ch] c Hwf Hc; simpl.
  - inversion Hwf; subst. constructor; auto.
    intros x [= <-]. rewrite Hc. apply app_nil_r.
  - inversion Hwf as [? ? ? Hc0 Hnd Hch]; subst.
    constructor; [assumption|apply dict_set_NoDup; assumption|].
    intros k' n' Hin. apply dict_set_elem in Hin as [[-> ->]|Hin]; [|auto].
    apply IH.
    + destruct (dict_get k ch) eqn:E; [|apply wf_empty].
      eapply wf_child; eassumption.
    + rewrite Hc. simpl. rewrite <- app_assoc. reflexivity.
Qed.

(** A call of [_delete] that returns [True] leaves an empty node. *)
Lemma _delete_flag nm : forall n,
  snd (_delete n nm) = true -> fst (_delete n nm) = empty_node.
Proof.
  destruct nm as [|c nm]; intros [c0 ch]; simpl.
  - destruct c0; simpl; [|discriminate].
    destruct ch; [reflexivity|discriminate].
  - unfold ContactTrie.child_of. destruct (lower ucd [c]) as [|k [|? ?]];
      simpl; try discriminate.
    destruct (dict_get k ch) as [child|]; simpl; [|discriminate].
    destruct (_delete child nm) as [child' b]. destruct b; simpl.
    + destruct (dict_del k ch); simpl; [|discriminate].
      destruct c0; simpl; [discriminate|reflexivity].
    + discriminate.
Qed.

(** [_delete] empties the end of the path it walks and nothing else. *)
Lemma search_delete nm : forall rp n q,
  wf_node ucd rp n ->
  search_path (fst (_delete n nm)) q =
  if decide (delete_path ucd nm = Some q) then None else search_path n q.
Proof.
  induction nm as [|c nm IH]; intros rp [c0 ch] q Hwf; simpl.
  - destruct q as [|k q].
    + rewrite decide_True by reflexivity. destruct c0; reflexivity.
    + rewrite decide_False by congruence. destruct c0; reflexivity.
  - unfold ContactTrie.child_of.
    destruct (lower ucd [c]) as [|k [|? ?]]; simpl;
      try reflexivity.
    destruct (dict_get k ch) as [child|] eqn:Hk; simpl.
    2:{ destruct (decide _) as [E|]; [|reflexivity].
        destruct (delete_path ucd nm); simpl in E; [|discriminate].
        injection E as <-. simpl. rewrite Hk. reflexivity. }
    pose proof (wf_child _ _ _ _ _ Hwf Hk) as Hwfc.
    pose proof (_delete_flag nm child) as Hflag.
    specialize (IH _ _ (match q with [] => [] | _ :: q' => q' end) Hwfc).
    destruct (_delete child nm) as [child' b]. simpl in IH, Hflag.
    inversion Hwf as [? ? ? _ Hnd _]; subst.
    destruct q as [|k' q].
    { rewrite decide_False
        by (destruct (delete_path ucd nm); simpl; congruence).
      destruct b; reflexivity. }
    destruct (decide (k' = k)) as [->|Hne].
    + assert (Hside :
        search_path child' q =
        if decide (option_map (cons k) (delete_path ucd nm) = Some (k :: q))
        then None else search_path child q).
      { rewrite IH. destruct (delete_path ucd nm) as [p|]; simpl.
        - destruct (decide (Some p = Some q)) as [[= ->]|Hn].
          + rewrite decide_True; reflexivity.
          + rewrite decide_False by congruence. reflexivity.
        - reflexivity. }
      destruct b; simpl.
      * rewrite dict_get_del_eq by assumption.
        rewrite Hflag in Hside by reflexivity.
        rewrite search_path_empty in Hside. rewrite Hk. exact Hside.
      * rewrite dict_get_set_eq, Hk. exact Hside.
    + rewrite decide_False
        by (destruct (delete_path ucd nm); simpl; congruence).
      destruct b; simpl.
      * rewrite dict_get_del_ne by congruence. reflexivity.
      * rewrite dict_get_set_ne by congruence. reflexivity.
Qed.

Lemma wf_delete nm : forall rp n,
  wf_node ucd rp n -> wf_node ucd rp (fst (_delete n nm)).
Proof.
  induction nm as [|c nm IH]; intros rp [c0 ch] Hwf; simpl.
  - destruct c0; simpl; [|assumption].
    inversion Hwf; subst. constructor; auto. discriminate.
  - unfold ContactTrie.child_of.
    destruct (lower ucd [c]) as [|k [|? ?]]; simpl; try assumption.
    destruct (dict_get k ch) as [child|] eqn:Hk; simpl; [|assumption].
    pose proof (wf_child _ _ _ _ _ Hwf Hk) as Hwfc.
    specialize (IH _ _ Hwfc).
    destruct (_delete child nm) as [child' b]. simpl in IH.
    inversion Hwf as [? ? ? Hc0 Hnd Hch]; subst.
    destruct b; simpl; constructor; auto.
    + apply dict_del_NoDup; assumption.
    + intros k' n' Hin. apply dict_del_elem in Hin. auto.
    + apply dict_set_NoDup; assumption.
    + intros k' n' Hin.
      apply dict_set_elem in Hin as [[-> ->]|Hin]; auto.
Qed.

(** When nothing is stored at the end of the walked path, [_delete]
    returns the very same trie. *)
Lemma _delete_absent nm : forall n,
  (forall q, delete_path ucd nm = Some q -> search_path n q = None) ->
  _delete n nm = (n, false).
Proof.
  induction nm as [|c nm IH]; intros [c0 ch] Habs; simpl.
  - specialize (Habs [] eq_refl). simpl in Habs. subst c0. reflexivity.
  - unfold ContactTrie.child_of. simpl in Habs.
    destruct (lower ucd [c]) as [|k [|? ?]]; simpl; try reflexivity.
    destruct (dict_get k ch) as [child|] eqn:Hk; simpl; [|reflexivity].
    rewrite IH.
    + rewrite dict_set_same by assumption. reflexivity.
    + intros q Hq. specialize (Habs (k :: q)).
      rewrite Hq in Habs. specialize (Habs eq_refl).
      simpl in Habs. rewrite Hk in Habs. exact Habs.
Qed.
End TrieFacts.

Lemma filter_flat_map {A B} (P : B -> bool) (f : A -> list B) (l : list A) :
  List.filter P (flat_map f l) = flat_map (fun x => List.filter P (f x)) l.
Proof.
  induction l as [|x l IH]; simpl; [reflexivity|].
  rewrite List.filter_app, IH. reflexivity.
Qed.

Lemma filter_all {A} (P : A -> bool) (l : list A) :
  (forall x, x ∈ l -> P x = true) -> List.filter P l = l.
Proof.
  induction l as [|x l IH]; simpl; intros H; [reflexivity|].
  rewrite (H x) by left. f_equal. apply IH. intros; apply H; right; assumption.
Qed.

Lemma filter_none {A} (P : A -> bool) (l : list A) :
  (forall x, x ∈ l -> P x = false) -> List.filter P l = [].
Proof.
  induction l as [|x l IH]; simpl; intros H; [reflexivity|].
  rewrite (H x) by left. apply IH. intros; apply H; right; assumption.
Qed.

Section TraverseFacts.
Variable ucd : CaseData.

Local Abbreviation search_path := ContactTrie.search_path.
Local Abbreviation _traverse := ContactTrie._traverse.
Local Abbreviation descend := ContactTrie.descend.
Local Abbreviation key := (folded ucd).

Lemma _traverse_Node c ch :
  _traverse (Node c ch) =
  match c with Some x => [x] | None => [] end
    ++ flat_map (block ch) (sorted_keys ch).
Proof.
  simpl. f_equal. apply flat_map_ext. intros k. apply dict_apply_get.
Qed.

Lemma elem_of_blocks ch x :
  x ∈ flat_map (block ch) (sorted_keys ch) <->
  exists k n, dict_get k ch = Some n /\ x ∈ _traverse n.
Proof.
  rewrite list_elem_of_In, in_flat_map. split.
  - intros [k [_ Hx]]. unfold block in Hx.
    destruct (dict_get k ch) as [n|] eqn:E; [|destruct Hx].
    exists k, n. rewrite list_elem_of_In. auto.
  - intros [k [n [Hk Hx]]]. exists k. split.
    + apply list_elem_of_In. rewrite sorted_keys_Permutation.
      apply list_elem_of_fmap. exists (k, n).
      eauto using dict_get_Some_elem.
    + unfold block. rewrite Hk. apply list_elem_of_In. assumption.
Qed.

(** Every contact listed below a node sits on a path under it, and its
    folded name spells the path from the root. *)
Lemma traverse_sound rp n :
  wf_node ucd rp n ->
  forall x, x ∈ _traverse n ->
    exists s, key x = rev rp ++ s /\ search_path n s = Some x.
Proof.
  induction 1 as [rp c ch Hc Hnd Hch IH]. intros x Hx.
  rewrite _traverse_Node in Hx. apply elem_of_app in Hx as [Hx|Hx].
  - destruct c as [c|]; [|inversion Hx].
    apply list_elem_of_singleton in Hx as ->.
    exists []. rewrite app_nil_r. auto.
  - apply elem_of_blocks in Hx as [k [n [Hk Hx]]].
    destruct (IH k n (dict_get_Some_elem _ _ _ Hk) x Hx) as [s [Hs Hp]].
    exists (k :: s). split.
    + rewrite Hs. simpl. rewrite <- app_assoc. reflexivity.
    + simpl. rewrite Hk. assumption.
Qed.

Lemma traverse_complete rp n :
  wf_node ucd rp n ->
  forall s x, search_path n s = Some x -> x ∈ _traverse n.
Proof.
  induction 1 as [rp c ch Hc Hnd Hch IH]. intros s x Hs.
  rewrite _traverse_Node. apply elem_of_app.
  destruct s as [|k s]; simpl in Hs.
  - left. subst c. left.
  - right. destruct (dict_get k ch) as [n|] eqn:Hk; [|discriminate].
    apply elem_of_blocks. exists k, n. split; [assumption|].
    eauto using dict_get_Some_elem.
Qed.

Lemma traverse_sorted rp n :
  wf_node ucd rp n ->
  StronglySorted (fun a b => str_ltb (key a) (key b) = true) (_traverse n).
Proof.
  induction 1 as [rp c ch Hc Hnd Hch IH].
  assert (Hblock : forall k x, x ∈ block ch k ->
            exists s, key x = rev rp ++ k :: s).
  { intros k x Hx. unfold block in Hx.
    destruct (dict_get k ch) as [n|] eqn:Hk; [|inversion Hx].
    apply dict_get_Some_elem in Hk.
    destruct (traverse_sound _ _ (Hch _ _ Hk) x Hx) as [s [Hs _]].
    exists s. rewrite Hs. simpl. rewrite <- app_assoc. reflexivity. }
  rewrite _traverse_Node. apply StronglySorted_app. split; [|split].
  - intros x1 x2 Hx1 Hx2.
    destruct c as [c|]; [|inversion Hx1].
    apply list_elem_of_singleton in Hx1 as ->.
    apply list_elem_of_In, in_flat_map in Hx2 as [k [_ Hx2]].
    apply list_elem_of_In, Hblock in Hx2 as [s ->].
    rewrite (Hc c eq_refl).
    rewrite <- (app_nil_r (rev rp)) at 1. rewrite str_ltb_app. reflexivity.
  - destruct c; repeat constructor.
  - apply StronglySorted_flat_map.
    + apply sorted_keys_increasing; assumption.
    + intros k _. unfold block.
      destruct (dict_get k ch) as [n|] eqn:Hk; [|constructor].
      eauto using dict_get_Some_elem.
    + intros k1 k2 x1 x2 _ _ Hlt Hx1 Hx2.
      apply Hblock in Hx1 as [s1 ->]. apply Hblock in Hx2 as [s2 ->].
      rewrite str_ltb_app. apply str_ltb_cons_lt; assumption.
Qed.

(** The contacts whose folded name starts with the path to a node and
    then [p] are the ones listed below the node [p] leads to. *)
Lemma traverse_filter rp n :
  wf_node ucd rp n ->
  forall p,
    List.filter (fun x => starts_with (rev rp ++ p) (key x)) (_traverse n) =
    match descend n p with Some n' => _traverse n' | None => [] end.
Proof.
  induction 1 as [rp c ch Hc Hnd Hch IH]. intros p.
  pose proof (wf_Node ucd rp c ch Hc Hnd Hch) as Hwf.
  destruct p as [|k p].
  - simpl descend. apply filter_all. intros x Hx.
    destruct (traverse_sound _ _ Hwf x Hx) as [s [-> _]].
    rewrite app_nil_r. apply starts_with_app.
  - rewrite _traverse_Node, List.filter_app, filter_flat_map.
    rewrite filter_none.
    2:{ intros x Hx. destruct c as [c|]; [|inversion Hx].
        apply list_elem_of_singleton in Hx as ->. rewrite (Hc c eq_refl).
        rewrite <- (app_nil_r (rev rp)) at 2.
        rewrite starts_with_app_inv. reflexivity. }
    simpl app. rewrite (flat_map_single _ k).
    + simpl descend. unfold block.
      destruct (decide (k ∈ sorted_keys ch)) as [Hin|Hout].
      * rewrite sorted_keys_Permutation in Hin.
        apply dict_get_is_key in Hin as [n Hk]. rewrite Hk.
        apply dict_get_Some_elem in Hk.
        rewrite <- (IH k n Hk p). apply List.filter_ext. intros x.
        simpl. rewrite <- app_assoc. reflexivity.
      * rewrite sorted_keys_Permutation in Hout.
        apply dict_get_None in Hout. rewrite Hout. reflexivity.
    + apply sorted_keys_NoDup; assumption.
    + intros k' _ Hne. apply filter_none. intros x Hx.
      unfold block in Hx.
      destruct (dict_get k' ch) as [n|] eqn:Hk'; [|inversion Hx].
      apply dict_get_Some_elem in Hk'.
      destruct (traverse_sound _ _ (Hch _ _ Hk') x Hx) as [s [-> _]].
      simpl. rewrite <- app_assoc, starts_with_app_inv. simpl.
      apply N.eqb_neq in Hne. rewrite N.eqb_sym, Hne. reflexivity.
Qed.
End TraverseFacts.

Lemma StronglySorted_filter {A} (R : relation A) (P : A -> bool) (l : list A) :
  StronglySorted R l -> StronglySorted R (List.filter P l).
Proof.
  induction 1 as [|x l Hs IH Hx]; simpl; [constructor|].
  destruct (P x); [|assumption].
  constructor; [assumption|].
  rewrite Forall_forall in *. intros y Hy.
  apply list_elem_of_In, filter_In in Hy as [Hy _].
  apply Hx, list_elem_of_In, Hy.
Qed.

Lemma StronglySorted_lt_NoDup {A} (f : A -> str) (l : list A) :
  StronglySorted (fun a b => str_ltb (f a) (f b) = true) l -> NoDup (map f l).
Proof.
  induction 1 as [|x l Hs IH Hx]; simpl; [constructor|].
  apply NoDup_cons. split; [|assumption].
  intros Hin. apply list_elem_of_fmap in Hin as [y [Hxy Hy]].
  rewrite Forall_forall in Hx. specialize (Hx y Hy).
  rewrite Hxy, str_ltb_irrefl in Hx. discriminate.
Qed.

Lemma StronglySorted_lt_le {A} (f : A -> str) (l : list A) :
  StronglySorted (fun a b => str_ltb (f a) (f b) = true) l ->
  StronglySorted (fun a b => str_leb (f a) (f b) = true) l.
Proof.
  induction 1 as [|x l Hs IH Hx]; constructor; [assumption|].
  eapply Forall_impl; [exact Hx|]. intros y Hy. simpl in Hy.
  unfold str_leb. rewrite (str_ltb_asym _ _ Hy). reflexivity.
Qed.

(** ** The trie the calls build *)

Section TrieStates.
Variable ucd : CaseData.

Lemma wf_insert t nm ph em :
  wf_node ucd [] t -> wf_node ucd [] (ContactTrie.insert ucd t nm ph em).
Proof. intros H. apply wf_insert_path; [assumption|reflexivity]. Qed.

Lemma wf_trie_call t c : wf_node ucd [] t -> wf_node ucd [] (trie_call ucd t c).
Proof.
  destruct c; simpl; intros H; [apply wf_insert|apply wf_delete]; assumption.
Qed.

Lemma wf_foldl_calls calls : forall t,
  wf_node ucd [] t -> wf_node ucd [] (foldl (trie_call ucd) t calls).
Proof.
  induction calls as [|c calls IH]; simpl; intros t H; [assumption|].
  apply IH, wf_trie_call, H.
Qed.

Lemma wf_trie_after calls : wf_node ucd [] (trie_after ucd calls).
Proof. apply wf_foldl_calls, wf_empty. Qed.

Lemma wf_insert_all calls : wf_node ucd [] (insert_all ucd calls).
Proof.
  unfold insert_all. generalize (wf_empty ucd []).
  generalize empty_node as t. induction calls as [|x calls IH]; simpl; auto.
  intros t H. apply IH, wf_insert, H.
Qed.

(** A contact is listed exactly when it is found under its own name. *)
Lemma listed_iff_stored t c :
  wf_node ucd [] t ->
  c ∈ ContactTrie.get_all_sorted t <->
  ContactTrie.search ucd t (name c) = Some c.
Proof.
  intros Hwf. unfold ContactTrie.get_all_sorted, ContactTrie.search. split.
  - intros Hc. destruct (traverse_sound _ _ _ Hwf c Hc) as [s [Hs Hp]].
    simpl in Hs. unfold folded in Hs. rewrite Hs. assumption.
  - apply (traverse_complete _ _ _ Hwf).
Qed.

Lemma search_insert t nm ph em nm' :
  ContactTrie.search ucd (ContactTrie.insert ucd t nm ph em) nm' =
  if str_eqb (lower ucd nm') (lower ucd nm)
  then Some {| name := nm; phone := ph; email := em |}
  else ContactTrie.search ucd t nm'.
Proof.
  unfold ContactTrie.search, ContactTrie.insert. rewrite search_insert_path.
  destruct (decide (lower ucd nm' = lower ucd nm)) as [E|E].
  - rewrite E, str_eqb_refl. reflexivity.
  - apply str_eqb_neq in E. rewrite E. reflexivity.
Qed.

Lemma search_prefix_filter t P :
  wf_node ucd [] t ->
  ContactTrie.search_prefix ucd t P =
  List.filter (fun c => starts_with (lower ucd P) (folded ucd c))
              (ContactTrie.get_all_sorted t).
Proof.
  intros Hwf. unfold ContactTrie.search_prefix, ContactTrie.get_all_sorted.
  rewrite <- (traverse_filter ucd [] t Hwf (lower ucd P)). reflexivity.
Qed.
End TrieStates.

(** C3: in every trie the calls can build, [search_prefix] returns exactly
    the stored contacts whose lowered name starts with the lowered prefix,
    in ascending order of lowered name; it is [get_all_sorted] filtered by
    the prefix, and with the empty prefix it is [get_all_sorted] itself. *)
Theorem search_prefix_exact (ucd : CaseData) (calls : list TrieCall)
    (prefix : str) :
  let t := trie_after ucd calls in
  (forall c, c ∈ ContactTrie.search_prefix ucd t prefix <->
             ContactTrie.search ucd t (name c) = Some c /\
             starts_with (lower ucd prefix) (folded ucd c) = true)
  /\ StronglySorted (fun a b => str_ltb (folded ucd a) (folded ucd b) = true)
       (ContactTrie.search_prefix ucd t prefix)
  /\ ContactTrie.search_prefix ucd t prefix =
     List.filter (fun c => starts_with (lower ucd prefix) (folded ucd c))
                 (ContactTrie.get_all_sorted t)
  /\ ContactTrie.search_prefix ucd t [] = ContactTrie.get_all_sorted t.
Proof.
  intros t. assert (Hwf : wf_node ucd [] t) by apply wf_trie_after.
  split; [|split; [|split]].
  - intros c. rewrite search_prefix_filter by assumption.
    rewrite list_elem_of_In, filter_In, <- list_elem_of_In.
    rewrite (listed_iff_stored ucd t c Hwf). reflexivity.
  - rewrite search_prefix_filter by assumption.
    apply StronglySorted_filter, (traverse_sorted ucd [] t Hwf).
  - apply search_prefix_filter; assumption.
  - reflexivity.
Qed.

Lemma search_insert_all (ucd : CaseData) (calls : list (str * str * str))
    (nm : str) :
  ContactTrie.search ucd (insert_all ucd calls) nm =
  latest ucd (lower ucd nm) calls.
Proof.
  unfold insert_all, latest.
  assert (H0 : ContactTrie.search ucd empty_node nm = None)
    by apply search_path_empty.
  revert H0. generalize (@None Contact) as found. generalize empty_node as t.
  induction calls as [|x calls IH]; simpl; intros t found H; [assumption|].
  apply IH. rewrite search_insert, H.
  destruct (str_eqb (lower ucd nm) (lower ucd x.1.1)) eqn:E.
  - apply str_eqb_eq in E. rewrite <- E, str_eqb_refl. reflexivity.
  - destruct (str_eqb (lower ucd x.1.1) (lower ucd nm)) eqn:E'; [|reflexivity].
    apply str_eqb_eq in E'. rewrite E', str_eqb_refl in E. discriminate.
Qed.

(** C4: after any sequence of inserts, looking a name up gives the record
    of the last insert with the same lowered name; a contact is listed
    exactly when it is that record for its own name; no two listed contacts
    share a lowered name; and an [add_contact] request always returns. *)
Theorem one_contact_per_folded_name (ucd : CaseData)
    (calls : list (str * str * str)) :
  let t := insert_all ucd calls in
  (forall nm, ContactTrie.search ucd t nm = latest ucd (lower ucd nm) calls)
  /\ (forall c, c ∈ ContactTrie.get_all_sorted t <->
                latest ucd (folded ucd c) calls = Some c)
  /\ NoDup (map (folded ucd) (ContactTrie.get_all_sorted t))
  /\ (forall m nm ph em,
        exists m', do_POST ucd (add_contact nm ph em) m
                   = (m', Returned (get_data m'))).
Proof.
  intros t. assert (Hwf : wf_node ucd [] t) by apply wf_insert_all.
  split; [|split; [|split]].
  - intros nm. apply search_insert_all.
  - intros c. rewrite (listed_iff_stored ucd t c Hwf).
    unfold t. rewrite search_insert_all. reflexivity.
  - apply StronglySorted_lt_NoDup, (traverse_sorted ucd [] t Hwf).
  - intros m nm ph em. eexists. reflexivity.
Qed.

(** The scenario of the overwrite property: "Ann" then "ANN". *)
Example ann_then_ANN :
  ContactTrie.get_all_sorted
    (insert_all unicode_rows
       [(lit "Ann", lit "1", lit "a@x"); (lit "ANN", lit "2", lit "b@x")])
  = [{| name := lit "ANN"; phone := lit "2"; email := lit "b@x" |}].
Proof. reflexivity. Qed.

(** C10: an insert stores the record with the name as it was passed.  In
    any trie the calls can build, after [insert(nm, ph, em)] every name
    that lowers to the same string finds that record, and so do
    [get_all_sorted] and every [search_prefix] whose lowered prefix starts
    the lowered name; it is the only listed record with that lowered
    name. *)
Theorem insert_keeps_casing (ucd : CaseData) (calls : list TrieCall)
    (nm ph em : str) :
  let t := trie_after ucd calls in
  let t' := ContactTrie.insert ucd t nm ph em in
  let c := {| name := nm; phone := ph; email := em |} in
  (forall nm', ContactTrie.search ucd t' nm' =
               if str_eqb (lower ucd nm') (lower ucd nm)
               then Some c else ContactTrie.search ucd t nm')
  /\ (forall prefix, c ∈ ContactTrie.search_prefix ucd t' prefix <->
                     starts_with (lower ucd prefix) (lower ucd nm) = true)
  /\ c ∈ ContactTrie.get_all_sorted t'
  /\ (forall c', c' ∈ ContactTrie.get_all_sorted t' ->
                 folded ucd c' = lower ucd nm -> c' = c).
Proof.
  intros t t' c.
  assert (Hwf : wf_node ucd [] t') by apply wf_insert, wf_trie_after.
  assert (Hc : ContactTrie.search ucd t' (name c) = Some c).
  { unfold t'. rewrite search_insert. simpl. rewrite str_eqb_refl.
    reflexivity. }
  split; [|split; [|split]].
  - intros nm'. apply search_insert.
  - intros prefix. rewrite search_prefix_filter by assumption.
    rewrite list_elem_of_In, filter_In, <- list_elem_of_In.
    rewrite (listed_iff_stored ucd t' c Hwf). unfold folded. simpl. tauto.
  - apply (listed_iff_stored ucd t' c Hwf). assumption.
  - intros c' Hc' Hk. apply (listed_iff_stored ucd t' c' Hwf) in Hc'.
    unfold t' in Hc'. rewrite search_insert in Hc'.
    unfold folded in Hk. rewrite Hk, str_eqb_refl in Hc'.
    injection Hc' as <-. reflexivity.
Qed.

(** ** The dispatch *)

Lemma do_POST_contacts_wf (ucd : CaseData) (data : Request) (m : DataManager) :
  wf_node ucd [] (contacts m) ->
  wf_node ucd [] (contacts (fst (do_POST ucd data m))).
Proof.
  intros Hwf. run_dispatch; simpl; auto using wf_insert.
  apply wf_delete; assumption.
Qed.

Lemma serve_contacts_wf (ucd : CaseData) (reqs : list Request) :
  forall m, wf_node ucd [] (contacts m) ->
            wf_node ucd [] (contacts (serve ucd reqs m)).
Proof.
  induction reqs as [|r reqs IH]; simpl; intros m H; [assumption|].
  apply IH, do_POST_contacts_wf, H.
Qed.

(** C2: after any sequence of requests the three lists of [get_data] are
    sorted: contacts by lowered name, reminders by [time], projects by
    [start]. *)
Theorem get_data_sorted (ucd : CaseData) (reqs : list Request) :
  let d := get_data (serve ucd reqs new_manager) in
  StronglySorted (fun a b => str_leb (folded ucd a) (folded ucd b) = true)
    (data_contacts d)
  /\ StronglySorted (fun a b => (time a <=? time b)%Z = true)
       (data_reminders d)
  /\ StronglySorted (fun a b => str_leb (start a) (start b) = true)
       (data_projects d).
Proof.
  intros d. split; [|split].
  - apply StronglySorted_lt_le.
    apply (traverse_sorted ucd []), serve_contacts_wf, wf_empty.
  - unfold d, get_data; simpl. unfold ReminderQueue.get_all.
    apply (StronglySorted_fmap _ (fun a b => (a.1 <=? b.1)%Z = true)).
    + auto.
    + apply sorted_StronglySorted.
      * intros a b. rewrite !Z.leb_le. lia.
      * intros a b c. rewrite !Z.leb_le. lia.
  - unfold d, get_data; simpl. unfold ProjectQueue.get_all.
    apply (StronglySorted_fmap _
             (fun a b => str_leb a.1.1 b.1.1 = true)).
    + auto.
    + apply sorted_StronglySorted.
      * apply str_leb_total.
      * apply str_leb_trans.
Qed.

(** C7: a request with a recognized tag that lacks a field the operation
    reads raises [KeyError] for the first such field, and the manager is
    left as it was. *)
Theorem missing_field_raises (ucd : CaseData) (data : Request)
    (m : DataManager) (f : Field) :
  missing_field data = Some f ->
  do_POST ucd data m = (m, Raised (KeyError (lit (field_key f)))).
Proof.
  intros H. unfold missing_field, required_fields, operations in H.
  simpl in H.
  run_dispatch; cbn in H;
    repeat match goal with
           | E : ?x = _, H' : context [?x] |- _ => rewrite E in H'; cbn in H'
           end;
    try discriminate; injection H as <-; reflexivity.
Qed.

(** A recognized tag lacks a field it reads exactly when [missing_field]
    finds one. *)
Lemma missing_field_iff (data : Request) :
  (exists f, f ∈ required_fields (action data) /\ has_field data f = false)
  <-> exists f, missing_field data = Some f.
Proof.
  unfold missing_field. split.
  - intros [f [Hf Hm]].
    destruct (find _ (required_fields (action data))) as [g|] eqn:E;
      [eauto|].
    apply list_elem_of_In in Hf.
    pose proof (find_none _ _ E f Hf) as Hn. simpl in Hn.
    rewrite Hm in Hn. discriminate.
  - intros [f Hf]. apply find_some in Hf as [Hin Hm].
    exists f. split; [apply list_elem_of_In, Hin|].
    apply negb_true_iff, Hm.
Qed.

(** [add_contact] without [name]. *)
Lemma missing_field_raises_witness :
  do_POST unicode_rows (no_fields "add_contact") new_manager
  = (new_manager, Raised (KeyError (lit "name"))).
Proof.
  apply (missing_field_raises unicode_rows (no_fields "add_contact")
           new_manager FName).
  reflexivity.
Defined.

(** C8: a request whose tag is none of the six changes nothing and
    returns [get_data] of the unchanged manager. *)
Theorem unrecognized_is_noop (ucd : CaseData) (data : Request)
    (m : DataManager) :
  recognized (action data) = false ->
  do_POST ucd data m = (m, Returned (get_data m)).
Proof.
  unfold recognized, operations. simpl.
  rewrite !orb_false_iff. intros (H1 & H2 & H3 & H4 & H5 & H6 & _).
  unfold do_POST, dispatch, bind.
  rewrite H1, H2, H3, H4, H5, H6. reflexivity.
Qed.

(** A tag the handler does not know. *)
Lemma unrecognized_is_noop_witness :
  do_POST unicode_rows (no_fields "rename_contact") new_manager
  = (new_manager, Returned (get_data new_manager)).
Proof.
  apply (unrecognized_is_noop unicode_rows (no_fields "rename_contact")
           new_manager).
  reflexivity.
Defined.

(** ** [heapq]: the list keeps its elements *)

Lemma Permutation_filter {A} (P : A -> bool) (l l' : list A) :
  l ≡ₚ l' -> List.filter P l ≡ₚ List.filter P l'.
Proof.
  induction 1 as [|x l l' _ IH|x y l|l l' l'' _ IH1 _ IH2]; simpl.
  - reflexivity.
  - destruct (P x); [constructor|]; assumption.
  - destruct (P x), (P y); try reflexivity. apply Permutation_swap.
  - etransitivity; eassumption.
Qed.

Lemma filter_map_comm {A B} (P : B -> bool) (f : A -> B) (l : list A) :
  List.filter P (map f l) = map f (List.filter (fun x => P (f x)) l).
Proof.
  induction l as [|x l IH]; simpl; [reflexivity|].
  destruct (P (f x)); simpl; rewrite IH; reflexivity.
Qed.

Section HeapElements.
Context {A : Type} (ltb : A -> A -> bool).
Implicit Types (heap : list A) (pos : nat).

Lemma delete_insert_same heap pos (x : A) :
  delete pos (<[pos := x]> heap) = delete pos heap.
Proof.
  revert pos; induction heap as [|y heap IH]; intros [|pos]; simpl;
    try reflexivity.
  f_equal. apply IH.
Qed.

Lemma insert_Permutation heap pos (x : A) :
  (pos < length heap)%nat -> <[pos := x]> heap ≡ₚ x :: delete pos heap.
Proof.
  intros H. rewrite <- (delete_insert_same heap pos x).
  apply delete_Permutation, list_lookup_insert_eq, H.
Qed.

(** Copying the element at [i] into [j] moves the hole from [j] to [i]. *)
Lemma hole_move heap (i j : nat) (y : A) :
  i <> j -> heap !! i = Some y -> (j < length heap)%nat ->
  delete i (<[j := y]> heap) ≡ₚ delete j heap.
Proof.
  intros Hne Hi Hj. apply (Permutation_cons_inv (a := y)).
  rewrite <- (insert_Permutation heap j y) by assumption.
  symmetry. apply delete_Permutation.
  rewrite list_lookup_insert_ne by congruence. assumption.
Qed.

Lemma siftdown_loop_Permutation rounds : forall heap startpos pos (x : A),
  (pos < length heap)%nat ->
  heapq.siftdown_loop ltb rounds heap startpos pos x ≡ₚ x :: delete pos heap.
Proof.
  induction rounds as [|rounds IH]; intros heap startpos pos x Hpos;
    cbn [heapq.siftdown_loop].
  - apply insert_Permutation, Hpos.
  - destruct (startpos <? pos)%nat eqn:Hlt;
      [|apply insert_Permutation, Hpos].
    apply Nat.ltb_lt in Hlt.
    assert (Hpar : ((pos - 1) / 2 < pos)%nat).
    { apply Nat.Div0.div_lt_upper_bound. lia. }
    destruct (heap !! ((pos - 1) / 2)%nat) as [parent|] eqn:Hp.
    2:{ apply lookup_ge_None in Hp. lia. }
    destruct (ltb x parent); [|apply insert_Permutation, Hpos].
    rewrite IH by (rewrite length_insert; lia).
    constructor. apply hole_move; [lia|assumption|assumption].
Qed.

Lemma _siftdown_Permutation heap startpos pos :
  heapq._siftdown ltb heap startpos pos ≡ₚ heap.
Proof.
  unfold heapq._siftdown. destruct (heap !! pos) as [x|] eqn:Hx;
    [|reflexivity].
  rewrite siftdown_loop_Permutation by (eapply lookup_lt_Some; eassumption).
  symmetry. apply delete_Permutation, Hx.
Qed.

Lemma smaller_child_Some heap pos cp (c : A) :
  heapq.smaller_child ltb heap pos = Some (cp, c) ->
  heap !! cp = Some c /\ (cp = 2 * pos + 1 \/ cp = 2 * pos + 2)%nat.
Proof.
  unfold heapq.smaller_child.
  destruct (heap !! (2 * pos + 1)%nat) as [l|] eqn:Hl; [|discriminate].
  destruct (heap !! (2 * pos + 1 + 1)%nat) as [r|] eqn:Hr.
  - destruct (ltb l r); intros [= <- <-]; split; auto; right; lia.
  - intros [= <- <-]; auto.
Qed.

Lemma siftup_loop_Permutation rounds : forall heap pos,
  (pos < length heap)%nat ->
  let r := heapq.siftup_loop ltb rounds heap pos in
  (r.2 < length r.1)%nat /\ delete r.2 r.1 ≡ₚ delete pos heap.
Proof.
  induction rounds as [|rounds IH]; intros heap pos Hpos;
    cbn [heapq.siftup_loop].
  - split; [assumption|reflexivity].
  - destruct (heapq.smaller_child ltb heap pos) as [[cp c]|] eqn:Hc.
    2:{ split; [assumption|reflexivity]. }
    apply smaller_child_Some in Hc as [Hc Hcp].
    assert (Hlen : (cp < length heap)%nat)
      by (eapply lookup_lt_Some; eassumption).
    destruct (IH (<[pos := c]> heap) cp) as [H1 H2];
      [rewrite length_insert; assumption|].
    split; [assumption|].
    rewrite H2. apply hole_move; [lia|assumption|assumption].
Qed.

(** [len(heap)] rounds take the loop of [_siftup] to a leaf. *)
Lemma siftup_loop_ends rounds : forall heap pos,
  (pos < length heap)%nat -> (length heap <= pos + rounds)%nat ->
  let r := heapq.siftup_loop ltb rounds heap pos in
  heapq.smaller_child ltb r.1 r.2 = None.
Proof.
  induction rounds as [|rounds IH]; intros heap pos Hpos Hr;
    cbn [heapq.siftup_loop].
  - lia.
  - destruct (heapq.smaller_child ltb heap pos) as [[cp c]|] eqn:Hc;
      [|assumption].
    apply smaller_child_Some in Hc as [Hc Hcp].
    apply lookup_lt_Some in Hc.
    apply IH; rewrite length_insert; lia.
Qed.

Lemma _siftup_Permutation heap pos : heapq._siftup ltb heap pos ≡ₚ heap.
Proof.
  unfold heapq._siftup. destruct (heap !! pos) as [x|] eqn:Hx;
    [|reflexivity].
  assert (Hpos : (pos < length heap)%nat)
    by (eapply lookup_lt_Some; eassumption).
  pose proof (siftup_loop_Permutation (length heap) heap pos Hpos) as H.
  destruct (heapq.siftup_loop ltb (length heap) heap pos) as [heap' leaf].
  simpl in H. destruct H as [H1 H2].
  rewrite _siftdown_Permutation, insert_Permutation by assumption.
  rewrite H2. symmetry. apply delete_Permutation, Hx.
Qed.

Lemma heapify_Permutation (x : list A) : heapq.heapify ltb x ≡ₚ x.
Proof.
  unfold heapq.heapify. generalize (rev (seq 0 (length x / 2))) as idx.
  intros idx. revert x. induction idx as [|i idx IH]; intros x; simpl.
  - reflexivity.
  - rewrite IH. apply _siftup_Permutation.
Qed.

Lemma heappush_Permutation heap (item : A) :
  heapq.heappush ltb heap item ≡ₚ item :: heap.
Proof.
  unfold heapq.heappush. rewrite _siftdown_Permutation.
  symmetry. apply Permutation_cons_append.
Qed.
End HeapElements.

(** ** The queues *)

Lemma reminders_add_rows (q : ReminderQueue.t) (x : str) (ts : Z) :
  map reminder_row (ReminderQueue.get_all (ReminderQueue.add q x ts))
  ≡ₚ {| text := x; time := ts |}
       :: map reminder_row (ReminderQueue.get_all q).
Proof.
  unfold ReminderQueue.get_all, ReminderQueue.add.
  rewrite !sorted_Permutation, heappush_Permutation. reflexivity.
Qed.

Lemma reminders_remove_rows (q : ReminderQueue.t) (x : str) (ts : Z) :
  map reminder_row (ReminderQueue.get_all (ReminderQueue.remove q x ts))
  ≡ₚ List.filter (fun r => negb (reminder_matches x ts r))
       (map reminder_row (ReminderQueue.get_all q)).
Proof.
  unfold ReminderQueue.get_all, ReminderQueue.remove.
  rewrite filter_map_comm.
  rewrite sorted_Permutation, heapify_Permutation.
  apply Permutation_map, Permutation_filter. symmetry.
  apply sorted_Permutation.
Qed.

Lemma projects_add_rows (q : ProjectQueue.t) (nm s e : str) :
  map project_row (ProjectQueue.get_all (ProjectQueue.add q nm s e))
  ≡ₚ {| project_name := nm; start := s; end_ := e |}
       :: map project_row (ProjectQueue.get_all q).
Proof.
  unfold ProjectQueue.get_all, ProjectQueue.add.
  rewrite !sorted_Permutation, heappush_Permutation. reflexivity.
Qed.

Lemma projects_remove_rows (q : ProjectQueue.t) (nm s : str) :
  map project_row (ProjectQueue.get_all (ProjectQueue.remove q nm s))
  ≡ₚ List.filter (fun r => negb (project_matches nm s r))
       (map project_row (ProjectQueue.get_all q)).
Proof.
  unfold ProjectQueue.get_all, ProjectQueue.remove.
  rewrite filter_map_comm.
  rewrite sorted_Permutation, heapify_Permutation.
  apply Permutation_map, Permutation_filter. symmetry.
  apply sorted_Permutation.
Qed.

(** C5: from any state, two [add_reminder] requests with the same text
    and timestamp add two equal rows; one [delete_reminder] with that pair
    then returns normally and leaves exactly the rows that do not match,
    so both copies go and every other row stays.  From the empty store the
    rows are the two copies and then none. *)
Theorem duplicate_reminders (ucd : CaseData) (m : DataManager) (x : str)
    (ts : Z) :
  let row := {| text := x; time := ts |} in
  let m2 := serve ucd [add_reminder x ts; add_reminder x ts] m in
  let m3 := serve ucd [delete_reminder x ts] m2 in
  data_reminders (get_data m2) ≡ₚ row :: row :: data_reminders (get_data m)
  /\ do_POST ucd (delete_reminder x ts) m2 = (m3, Returned (get_data m3))
  /\ data_reminders (get_data m3)
     ≡ₚ List.filter (fun r => negb (reminder_matches x ts r))
          (data_reminders (get_data m2))
  /\ (m = new_manager ->
      data_reminders (get_data m2) = [row; row] /\
      data_reminders (get_data m3) = []).
Proof.
  intros row m2 m3.
  assert (E2 : m2 = with_reminders
                      (fun q => ReminderQueue.add (ReminderQueue.add q x ts)
                                                  x ts) m)
    by reflexivity.
  assert (E3 : m3 = with_reminders
                      (fun q => ReminderQueue.remove q x ts) m2)
    by reflexivity.
  split; [|split; [|split]].
  - rewrite E2. cbn [get_data data_reminders with_reminders reminders].
    rewrite !reminders_add_rows. reflexivity.
  - reflexivity.
  - rewrite E3. cbn [get_data data_reminders with_reminders reminders].
    apply reminders_remove_rows.
  - intros ->. rewrite E3, E2.
    cbn [get_data data_reminders with_reminders reminders new_manager].
    unfold ReminderQueue.remove, ReminderQueue.add, ReminderQueue.init.
    unfold heapq.heappush, heapq._siftdown, reminder_ltb.
    do 3 (cbn -[str_ltb str_eqb Z.eqb Z.ltb Z.leb];
          rewrite ?str_ltb_irrefl, ?Z.eqb_refl, ?str_eqb_refl, ?Z.leb_refl).
    split; reflexivity.
Qed.

(** ** [heapq]: the heap invariant *)

Lemma child_parent i c : child i c -> ((c - 1) / 2)%nat = i.
Proof.
  intros [-> | ->].
  - replace (2 * i + 1 - 1)%nat with (i * 2)%nat by lia.
    apply Nat.div_mul. lia.
  - replace (2 * i + 2 - 1)%nat with (1 + i * 2)%nat by lia.
    rewrite Nat.div_add by lia. reflexivity.
Qed.

Lemma parent_child j : (0 < j)%nat -> child ((j - 1) / 2) j.
Proof.
  intros Hj. unfold child.
  pose proof (Nat.div_mod_eq (j - 1) 2) as E.
  pose proof (Nat.mod_upper_bound (j - 1) 2) as B. lia.
Qed.

Lemma child_gt i c : child i c -> (i < c)%nat.
Proof. unfold child; lia. Qed.

Lemma descends_le start pos : descends start pos -> (start <= pos)%nat.
Proof.
  induction 1 as [|i c _ IH Hc]; [lia|]. apply child_gt in Hc. lia.
Qed.

Lemma descends_parent start pos :
  descends start pos -> pos <> start -> descends start ((pos - 1) / 2).
Proof.
  destruct 1 as [|i c Hi Hc]; [congruence|].
  intros _. rewrite (child_parent _ _ Hc). assumption.
Qed.

Lemma descends_root pos : descends 0 pos.
Proof.
  induction pos as [pos IH] using lt_wf_ind.
  destruct pos as [|pos]; [constructor|].
  apply (descends_child 0 ((S pos - 1) / 2)).
  - apply IH. apply Nat.Div0.div_lt_upper_bound. lia.
  - apply parent_child. lia.
Qed.

Section HeapOrder.
Context {A : Type} (ltb : A -> A -> bool).
Hypothesis ltb_irrefl : forall a, ltb a a = false.
Hypothesis ltb_trans :
  forall a b c, ltb a b = true -> ltb b c = true -> ltb a c = true.
Hypothesis ltb_antisym :
  forall a b, ltb a b = false -> ltb b a = false -> a = b.
Implicit Types (h g : list A) (pos start : nat).

Lemma ltb_asym a b : ltb a b = true -> ltb b a = false.
Proof using ltb_irrefl ltb_trans.
  intros H. destruct (ltb b a) eqn:E; [|reflexivity].
  rewrite <- (ltb_irrefl a). symmetry. eapply ltb_trans; eassumption.
Qed.

(** [a <= b <= c] gives [a <= c], with [x <= y] read as [not (y < x)]. *)
Lemma le_trans a b c :
  ltb b a = false -> ltb c b = false -> ltb c a = false.
Proof using ltb_trans ltb_antisym.
  intros Hba Hcb. destruct (ltb c a) eqn:Hca; [|reflexivity].
  destruct (ltb a b) eqn:Hab.
  - rewrite (ltb_trans _ _ _ Hca Hab) in Hcb. discriminate.
  - rewrite (ltb_antisym _ _ Hab Hba) in Hca. congruence.
Qed.

Lemma lt_le_trans a b c :
  ltb a b = true -> ltb c b = false -> ltb c a = false.
Proof using ltb_irrefl ltb_trans ltb_antisym.
  intros Hab Hcb. eapply le_trans; [|eassumption].
  apply ltb_asym, Hab.
Qed.

Lemma is_heap_from_weaken lo lo' h :
  (lo <= lo')%nat -> is_heap_from ltb lo h -> is_heap_from ltb lo' h.
Proof. intros Hle H i c Hi. apply H. lia. Qed.

Lemma is_heap_from_leaves h : is_heap_from ltb (length h / 2) h.
Proof.
  intros i c Hi Hc x y _ Hy. apply lookup_lt_Some in Hy.
  pose proof (Nat.div_mod_eq (length h) 2) as E.
  pose proof (Nat.mod_upper_bound (length h) 2) as B.
  unfold child in Hc. lia.
Qed.

(** Putting [x] into the hole completes the heap. *)
Lemma hole_fill start x h pos :
  (pos < length h)%nat ->
  (forall i c, (start <= i)%nat -> child i c -> c <> pos ->
               edge_ok ltb h i c) ->
  (forall c y, child pos c -> h !! c = Some y -> ltb y x = false) ->
  ((start < pos)%nat ->
   forall p, h !! ((pos - 1) / 2)%nat = Some p -> ltb x p = false) ->
  is_heap_from ltb start (<[pos := x]> h).
Proof.
  intros Hpos Hedges Hbelow Habove i c Hi Hc a b Ha Hb.
  pose proof (child_gt _ _ Hc) as Hlt.
  destruct (decide (c = pos)) as [->|Hcp].
  - rewrite list_lookup_insert_eq in Hb by assumption.
    injection Hb as <-.
    rewrite list_lookup_insert_ne in Ha by lia.
    rewrite <- (child_parent _ _ Hc) in Ha.
    apply (Habove ltac:(lia) a Ha).
  - rewrite list_lookup_insert_ne in Hb by congruence.
    destruct (decide (i = pos)) as [->|Hip].
    + rewrite list_lookup_insert_eq in Ha by assumption.
      injection Ha as <-. eapply Hbelow; eassumption.
    + rewrite list_lookup_insert_ne in Ha by congruence.
      eapply Hedges; eassumption.
Qed.

Lemma siftdown_loop_heap start x rounds : forall h pos,
  (pos <= rounds)%nat -> hole_ok ltb start x h pos ->
  is_heap_from ltb start (heapq.siftdown_loop ltb rounds h start pos x).
Proof using ltb_irrefl ltb_trans ltb_antisym.
  induction rounds as [|rounds IH];
    intros h pos Hr (Hpos & Hdesc & Hedges & Hbelow & Hgrand);
    cbn [heapq.siftdown_loop].
  - apply hole_fill; auto. intros Hlt. lia.
  - destruct (start <? pos)%nat eqn:Hlt.
    2:{ apply Nat.ltb_ge in Hlt. apply hole_fill; auto. intros ?. lia. }
    apply Nat.ltb_lt in Hlt.
    assert (Hpar : ((pos - 1) / 2 < pos)%nat)
      by (apply Nat.Div0.div_lt_upper_bound; lia).
    assert (Hpc : child ((pos - 1) / 2) pos) by (apply parent_child; lia).
    destruct (h !! ((pos - 1) / 2)%nat) as [parent|] eqn:Hp.
    2:{ apply lookup_ge_None in Hp. lia. }
    destruct (ltb x parent) eqn:Hxp.
    { assert (Hdp : descends start ((pos - 1) / 2))
        by (apply descends_parent; [assumption|lia]).
      apply IH; [lia|]. split; [rewrite length_insert; lia|].
      split; [assumption|]. split; [|split].
      - intros i c Hi Hc Hne a b Ha Hb.
        destruct (decide (c = pos)) as [->|Hcp].
        + rewrite (child_parent _ _ Hc) in Hp.
          rewrite list_lookup_insert_eq in Hb by assumption.
          rewrite list_lookup_insert_ne in Ha
            by (apply child_gt in Hc; lia).
          rewrite Ha in Hp. injection Hp as ->. injection Hb as <-.
          apply ltb_irrefl.
        + rewrite list_lookup_insert_ne in Hb by congruence.
          destruct (decide (i = pos)) as [->|Hip].
          * rewrite list_lookup_insert_eq in Ha by assumption.
            injection Ha as <-.
            apply (Hgrand Hlt c b parent Hc Hb eq_refl).
          * rewrite list_lookup_insert_ne in Ha by congruence.
            eapply Hedges; eassumption.
      - intros c y Hc Hy.
        destruct (decide (c = pos)) as [->|Hcp].
        + rewrite list_lookup_insert_eq in Hy by assumption.
          injection Hy as <-. apply ltb_asym, Hxp.
        + rewrite list_lookup_insert_ne in Hy by congruence.
          apply (lt_le_trans x parent y Hxp).
          apply (Hedges ((pos - 1) / 2)%nat c); auto.
          apply descends_le in Hdp. lia.
      - intros Hsp c y p Hc Hy Hgp.
        set (pp := ((pos - 1) / 2)%nat) in *.
        assert (Hgpar : ((pp - 1) / 2 < pp)%nat)
          by (apply Nat.Div0.div_lt_upper_bound; lia).
        rewrite list_lookup_insert_ne in Hgp by lia.
        assert (Hgs : (start <= (pp - 1) / 2)%nat).
        { apply descends_le, descends_parent; [assumption|lia]. }
        assert (Hgc : child ((pp - 1) / 2) pp) by (apply parent_child; lia).
        assert (Hpp : ltb parent p = false).
        { apply (Hedges _ _ Hgs Hgc ltac:(lia) p parent Hgp Hp). }
        destruct (decide (c = pos)) as [->|Hcp].
        + rewrite list_lookup_insert_eq in Hy by assumption.
          injection Hy as <-. exact Hpp.
        + rewrite list_lookup_insert_ne in Hy by congruence.
          apply (le_trans p parent y Hpp).
          apply (Hedges pp c); auto. lia. }
    apply hole_fill; auto.
    intros _ p Hp'. rewrite Hp in Hp'. injection Hp' as <-. exact Hxp.
Qed.

Lemma heappush_heap h item :
  is_heap_from ltb 0 h -> is_heap_from ltb 0 (heapq.heappush ltb h item).
Proof using ltb_irrefl ltb_trans ltb_antisym.
  intros Hh. unfold heapq.heappush, heapq._siftdown.
  rewrite length_app. simpl length.
  replace (length h + 1 - 1)%nat with (length h) by lia.
  rewrite list_lookup_middle by reflexivity.
  apply siftdown_loop_heap; [lia|].
  assert (Hleaf : forall c y, child (length h) c ->
                              (h ++ [item]) !! c = Some y -> False).
  { intros c y Hc Hy. apply lookup_lt_Some in Hy.
    rewrite length_app in Hy. simpl in Hy. unfold child in Hc. lia. }
  split; [rewrite length_app; simpl; lia|].
  split; [apply descends_root|]. split; [|split].
  - intros i c Hi Hc Hne a b Ha Hb.
    pose proof (child_gt _ _ Hc) as Hlt.
    pose proof (lookup_lt_Some _ _ _ Hb) as Hlen.
    rewrite length_app in Hlen. simpl in Hlen.
    rewrite lookup_app_l in Ha, Hb by lia.
    eapply Hh; eassumption.
  - intros c y Hc Hy. destruct (Hleaf c y Hc Hy).
  - intros _ c y p Hc Hy _. destruct (Hleaf c y Hc Hy).
Qed.

(** The child the loop of [_siftup] moves up is the least one. *)
Lemma smaller_child_least h pos cp c :
  heapq.smaller_child ltb h pos = Some (cp, c) ->
  h !! cp = Some c /\ child pos cp /\
  forall c' y, child pos c' -> h !! c' = Some y -> ltb y c = false.
Proof using ltb_irrefl ltb_trans.
  unfold heapq.smaller_child, child.
  destruct (h !! (2 * pos + 1)%nat) as [l|] eqn:Hl; [|discriminate].
  replace (2 * pos + 1 + 1)%nat with (2 * pos + 2)%nat by lia.
  destruct (h !! (2 * pos + 2)%nat) as [r|] eqn:Hr.
  - destruct (ltb l r) eqn:Hlr; intros [= <- <-];
      (split; [assumption|]); (split; [lia|]);
      intros c' y [-> | ->] Hy; rewrite Hy in *;
      match goal with H : Some _ = Some _ |- _ => injection H as -> end;
      auto using ltb_asym.
  - intros [= <- <-]. split; [assumption|]. split; [lia|].
    intros c' y [-> | ->] Hy; rewrite Hy in *; [|discriminate].
    injection Hl as ->. apply ltb_irrefl.
Qed.

Lemma smaller_child_None h pos :
  heapq.smaller_child ltb h pos = None ->
  forall c, child pos c -> h !! c = None.
Proof.
  unfold heapq.smaller_child.
  destruct (h !! (2 * pos + 1)%nat) as [l|] eqn:Hl.
  - destruct (h !! (2 * pos + 1 + 1)%nat); [destruct (ltb l _)|];
      discriminate.
  - intros _ c Hc. apply lookup_ge_None. apply lookup_ge_None in Hl.
    unfold child in Hc. lia.
Qed.

Lemma siftup_loop_sinking start rounds : forall h pos,
  sinking_ok ltb start h pos -> (length h <= pos + rounds)%nat ->
  let r := heapq.siftup_loop ltb rounds h pos in
  sinking_ok ltb start r.1 r.2 /\ heapq.smaller_child ltb r.1 r.2 = None.
Proof using ltb_irrefl ltb_trans ltb_antisym.
  induction rounds as [|rounds IH];
    intros h pos (Hpos & Hdesc & Hedges) Hr; cbn [heapq.siftup_loop].
  - lia.
  - destruct (heapq.smaller_child ltb h pos) as [[cp c]|] eqn:Hsc.
    2:{ simpl. repeat split; assumption. }
    apply smaller_child_least in Hsc as (Hcp & Hchild & Hleast).
    pose proof (child_gt _ _ Hchild) as Hlt.
    pose proof (descends_le _ _ Hdesc) as Hsp.
    apply IH; [|rewrite length_insert; lia].
    split; [rewrite length_insert; eapply lookup_lt_Some; eassumption|].
    split; [econstructor; eassumption|].
    intros i c' Hi Hc' _ a b Ha Hb.
    destruct (decide (i = pos)) as [->|Hip].
    + rewrite list_lookup_insert_eq in Ha by assumption.
      injection Ha as <-.
      rewrite list_lookup_insert_ne in Hb by (apply child_gt in Hc'; lia).
      eapply Hleast; eassumption.
    + rewrite list_lookup_insert_ne in Ha by congruence.
      destruct (decide (c' = pos)) as [->|Hcp'].
      * rewrite list_lookup_insert_eq in Hb by assumption.
        injection Hb as <-.
        pose proof (child_gt _ _ Hc') as Hlt'.
        destruct (lookup_lt_is_Some_2 h pos Hpos) as [v Hv].
        apply (le_trans a v c).
        -- apply (Hedges i pos Hi Hc' ltac:(lia) a v Ha Hv).
        -- apply (Hedges pos cp Hsp Hchild ltac:(lia) v c Hv Hcp).
      * rewrite list_lookup_insert_ne in Hb by congruence.
        apply (Hedges i c' Hi Hc' ltac:(lia) a b Ha Hb).
Qed.

Lemma _siftup_heap h start :
  is_heap_from ltb (S start) h ->
  is_heap_from ltb start (heapq._siftup ltb h start).
Proof using ltb_irrefl ltb_trans ltb_antisym.
  intros Hh. unfold heapq._siftup.
  destruct (h !! start) as [x|] eqn:Hx.
  2:{ intros i c Hi Hc a b Ha Hb.
      destruct (decide (i = start)) as [->|Hne]; [congruence|].
      apply (Hh i c ltac:(lia) Hc a b Ha Hb). }
  assert (Hstart : sinking_ok ltb start h start).
  { split; [eapply lookup_lt_Some; eassumption|].
    split; [constructor|].
    intros i c Hi Hc Hne. apply Hh; [|assumption].
    destruct (decide (i = start)) as [E|E]; [destruct (Hne E eq_refl)|lia]. }
  destruct (siftup_loop_sinking start (length h) h start Hstart ltac:(lia))
    as [(Hleaf & Hdesc & Hedges) Hnone].
  destruct (heapq.siftup_loop ltb (length h) h start) as [g leaf].
  simpl in Hleaf, Hdesc, Hedges, Hnone.
  pose proof (smaller_child_None _ _ Hnone) as Hnc.
  unfold heapq._siftdown.
  rewrite list_lookup_insert_eq by assumption.
  assert (Hgone : forall c y, child leaf c ->
                              <[leaf := x]> g !! c = Some y -> False).
  { intros c y Hc Hy.
    rewrite list_lookup_insert_ne in Hy by (apply child_gt in Hc; lia).
    rewrite (Hnc c Hc) in Hy. discriminate. }
  apply siftdown_loop_heap; [lia|].
  split; [rewrite length_insert; assumption|].
  split; [assumption|]. split; [|split].
  - intros i c Hi Hc Hne a b Ha Hb.
    destruct (decide (i = leaf)) as [->|Hil];
      [destruct (Hgone c b Hc Hb)|].
    rewrite list_lookup_insert_ne in Ha, Hb by congruence.
    apply (Hedges i c Hi Hc ltac:(congruence) a b Ha Hb).
  - intros c y Hc Hy. destruct (Hgone c y Hc Hy).
  - intros _ c y p Hc Hy _. destruct (Hgone c y Hc Hy).
Qed.

Lemma siftup_all_heap k : forall h,
  is_heap_from ltb k h ->
  is_heap_from ltb 0 (foldl (heapq._siftup ltb) h (rev (seq 0 k))).
Proof using ltb_irrefl ltb_trans ltb_antisym.
  induction k as [|k IH]; intros h Hh; [assumption|].
  rewrite seq_S, rev_unit. simpl. apply IH, _siftup_heap, Hh.
Qed.

Lemma heapify_heap (x : list A) : is_heap_from ltb 0 (heapq.heapify ltb x).
Proof using ltb_irrefl ltb_trans ltb_antisym.
  apply siftup_all_heap, is_heap_from_leaves.
Qed.

(** The loop of [_siftdown] overwrites [pos] before it reads it. *)
Lemma siftdown_loop_overwrite start x rounds : forall g pos v,
  (pos < length g)%nat ->
  heapq.siftdown_loop ltb rounds (<[pos := v]> g) start pos x =
  heapq.siftdown_loop ltb rounds g start pos x.
Proof.
  destruct rounds as [|rounds]; intros g pos v Hpos;
    cbn [heapq.siftdown_loop].
  - apply list_insert_insert_eq.
  - destruct (start <? pos)%nat eqn:Hlt; [|apply list_insert_insert_eq].
    apply Nat.ltb_lt in Hlt.
    assert (Hpar : ((pos - 1) / 2 < pos)%nat)
      by (apply Nat.Div0.div_lt_upper_bound; lia).
    rewrite list_lookup_insert_ne by lia.
    destruct (g !! ((pos - 1) / 2)%nat) as [parent|] eqn:Hp.
    + rewrite !list_insert_insert_eq. reflexivity.
    + apply lookup_ge_None in Hp. lia.
Qed.

(** More rounds than [pos] change nothing. *)
Lemma siftdown_loop_rounds start x r : forall r' g pos,
  (pos <= r)%nat -> (pos <= r')%nat ->
  heapq.siftdown_loop ltb r g start pos x =
  heapq.siftdown_loop ltb r' g start pos x.
Proof.
  induction r as [|r IH]; intros [|r'] g pos Hr Hr';
    cbn [heapq.siftdown_loop]; try reflexivity.
  - replace (start <? pos)%nat with false
      by (symmetry; apply Nat.ltb_ge; lia). reflexivity.
  - replace (start <? pos)%nat with false
      by (symmetry; apply Nat.ltb_ge; lia). reflexivity.
  - destruct (start <? pos)%nat eqn:Hlt; [|reflexivity].
    apply Nat.ltb_lt in Hlt.
    assert (Hpar : ((pos - 1) / 2 < pos)%nat)
      by (apply Nat.Div0.div_lt_upper_bound; lia).
    destruct (g !! ((pos - 1) / 2)%nat) as [parent|]; [|reflexivity].
    destruct (ltb x parent); [|reflexivity].
    apply IH; lia.
Qed.

Lemma siftup_loop_retraces start x h rounds :
  is_heap_from ltb start h ->
  forall g pos,
    retraces ltb start x h g pos ->
    let r := heapq.siftup_loop ltb rounds g pos in
    retraces ltb start x h r.1 r.2.
Proof using ltb_irrefl ltb_trans ltb_antisym.
  intros Hh. induction rounds as [|rounds IH];
    intros g pos Hret; cbn [heapq.siftup_loop]; [assumption|].
  destruct (heapq.smaller_child ltb g pos) as [[cp c]|] eqn:Hsc;
    [|assumption].
  destruct Hret as (Hpos & Hdesc & Hsame & Hxle & Hup & Hback).
  apply smaller_child_least in Hsc as (Hcp & Hchild & _).
  pose proof (child_gt _ _ Hchild) as Hlt.
  pose proof (descends_le _ _ Hdesc) as Hsp.
  pose proof (child_parent _ _ Hchild) as Hpar.
  assert (Hcplen : (cp < length g)%nat)
    by (eapply lookup_lt_Some; eassumption).
  assert (Hhcp : h !! cp = Some c) by (rewrite <- Hsame by lia; assumption).
  destruct (lookup_lt_is_Some_2 g pos Hpos) as [v Hgv].
  assert (Hhv : h !! pos = Some v) by (rewrite <- Hsame by lia; assumption).
  assert (Hvc : ltb c v = false) by (apply (Hh pos cp Hsp Hchild v c Hhv Hhcp)).
  assert (Hxc : ltb c x = false) by (apply (le_trans x v c); auto).
  apply IH. split; [rewrite length_insert; assumption|].
  split; [econstructor; eassumption|]. split; [|split; [|split]].
  - intros j Hj. rewrite list_lookup_insert_ne by lia. apply Hsame. lia.
  - intros w Hw. rewrite Hhcp in Hw. injection Hw as <-. exact Hxc.
  - intros _. rewrite Hpar, list_lookup_insert_eq by assumption.
    symmetry; assumption.
  - destruct cp as [|cp']; [lia|]. cbn [heapq.siftdown_loop].
    replace (start <? S cp')%nat with true
      by (symmetry; apply Nat.ltb_lt; lia).
    rewrite Hpar, list_lookup_insert_eq by assumption.
    destruct (ltb x c) eqn:Hltxc.
    + rewrite (list_insert_id (<[pos := c]> g) (S cp') c)
        by (rewrite list_lookup_insert_ne by lia; assumption).
      rewrite siftdown_loop_overwrite by assumption.
      rewrite <- Hback. apply siftdown_loop_rounds; lia.
    + assert (c = x) by (apply ltb_antisym; assumption). subst c.
      assert (v = x).
      { apply ltb_antisym; [|assumption]. apply Hxle, Hhv. }
      subst v.
      rewrite (list_insert_id (<[pos := x]> g) (S cp') x)
        by (rewrite list_lookup_insert_ne by lia; assumption).
      rewrite <- Hback. symmetry.
      destruct pos as [|pos']; cbn [heapq.siftdown_loop]; [reflexivity|].
      destruct (start <? S pos')%nat eqn:Hs; [|reflexivity].
      apply Nat.ltb_lt in Hs. rewrite (Hup Hs), Hhv, ltb_irrefl.
      reflexivity.
Qed.

(** On a list that is a heap from [start] on, [_siftup] changes nothing. *)
Lemma _siftup_id h start :
  is_heap_from ltb start h -> heapq._siftup ltb h start = h.
Proof using ltb_irrefl ltb_trans ltb_antisym.
  intros Hh. unfold heapq._siftup.
  destruct (h !! start) as [x|] eqn:Hx; [|reflexivity].
  assert (Hstart : retraces ltb start x h h start).
  { split; [eapply lookup_lt_Some; eassumption|].
    split; [constructor|]. split; [reflexivity|]. split; [|split].
    - intros v Hv. rewrite Hx in Hv. injection Hv as <-. apply ltb_irrefl.
    - lia.
    - destruct start; cbn [heapq.siftdown_loop];
        rewrite ?Nat.ltb_irrefl; apply list_insert_id, Hx. }
  pose proof (siftup_loop_retraces start x h (length h) Hh h start Hstart)
    as Hret.
  destruct (heapq.siftup_loop ltb (length h) h start) as [g leaf].
  destruct Hret as (Hleaf & _ & _ & _ & _ & Hback). simpl in Hleaf, Hback.
  unfold heapq._siftdown. rewrite list_lookup_insert_eq by assumption.
  rewrite siftdown_loop_overwrite by assumption. exact Hback.
Qed.

Lemma heapify_id h : is_heap_from ltb 0 h -> heapq.heapify ltb h = h.
Proof using ltb_irrefl ltb_trans ltb_antisym.
  intros Hh. unfold heapq.heapify.
  generalize (rev (seq 0 (length h / 2))) as idx.
  induction idx as [|i idx IH]; simpl; [reflexivity|].
  rewrite _siftup_id; [assumption|].
  eapply is_heap_from_weaken; [|eassumption]. lia.
Qed.
End HeapOrder.

(** ** The order of the queue entries *)

Lemma reminder_ltb_irrefl a : reminder_ltb a a = false.
Proof. unfold reminder_ltb. rewrite Z.eqb_refl. apply str_ltb_irrefl. Qed.

Lemma reminder_ltb_trans a b c :
  reminder_ltb a b = true -> reminder_ltb b c = true ->
  reminder_ltb a c = true.
Proof.
  unfold reminder_ltb. destruct a as [t1 x1], b as [t2 x2], c as [t3 x3].
  simpl. destruct (Z.eqb_spec t1 t2), (Z.eqb_spec t2 t3), (Z.eqb_spec t1 t3);
    rewrite ?Z.ltb_lt; subst; try lia; try congruence.
  apply str_ltb_trans.
Qed.

Lemma reminder_ltb_antisym a b :
  reminder_ltb a b = false -> reminder_ltb b a = false -> a = b.
Proof.
  unfold reminder_ltb. destruct a as [t1 x1], b as [t2 x2]. simpl.
  destruct (Z.eqb_spec t1 t2), (Z.eqb_spec t2 t1);
    rewrite ?Z.ltb_ge; subst; try lia; try congruence.
  intros H1 H2. f_equal. apply str_ltb_antisym; assumption.
Qed.

Lemma project_ltb_irrefl a : project_ltb a a = false.
Proof.
  destruct a as [[s n] e]. simpl. rewrite !str_eqb_refl.
  apply str_ltb_irrefl.
Qed.

Lemma project_ltb_trans a b c :
  project_ltb a b = true -> project_ltb b c = true ->
  project_ltb a c = true.
Proof.
  destruct a as [[s1 n1] e1], b as [[s2 n2] e2], c as [[s3 n3] e3]. simpl.
  destruct (str_eqb s1 s2) eqn:E12, (str_eqb s2 s3) eqn:E23;
    rewrite ?str_eqb_eq in *; subst; rewrite ?str_eqb_refl, ?E12, ?E23.
  - destruct (str_eqb n1 n2) eqn:F12, (str_eqb n2 n3) eqn:F23;
      rewrite ?str_eqb_eq in *; subst; rewrite ?str_eqb_refl, ?F12, ?F23;
      try apply str_ltb_trans; auto.
    intros H1 H2. pose proof (str_ltb_trans _ _ _ H1 H2) as H.
    destruct (str_eqb n1 n3) eqn:F13; [|assumption].
    apply str_eqb_eq in F13; subst.
    rewrite str_ltb_irrefl in H. discriminate.
  - auto.
  - auto.
  - intros H1 H2. pose proof (str_ltb_trans _ _ _ H1 H2) as H.
    destruct (str_eqb s1 s3) eqn:E13; [|assumption].
    apply str_eqb_eq in E13; subst.
    rewrite str_ltb_irrefl in H. discriminate.
Qed.

Lemma project_ltb_antisym a b :
  project_ltb a b = false -> project_ltb b a = false -> a = b.
Proof.
  destruct a as [[s1 n1] e1], b as [[s2 n2] e2]. simpl.
  destruct (str_eqb s1 s2) eqn:E.
  - apply str_eqb_eq in E; subst. rewrite str_eqb_refl.
    destruct (str_eqb n1 n2) eqn:F.
    + apply str_eqb_eq in F; subst. rewrite str_eqb_refl.
      intros H1 H2. f_equal. apply str_ltb_antisym; assumption.
    + replace (str_eqb n2 n1) with false.
      * intros H1 H2. rewrite (str_ltb_antisym _ _ H1 H2), str_eqb_refl in F.
        discriminate.
      * symmetry. apply str_eqb_neq. apply str_eqb_neq in F. congruence.
  - replace (str_eqb s2 s1) with false.
    + intros H1 H2. rewrite (str_ltb_antisym _ _ H1 H2), str_eqb_refl in E.
      discriminate.
    + symmetry. apply str_eqb_neq. apply str_eqb_neq in E. congruence.
Qed.

(** ** The queues stay heaps, and a removal that matches nothing is void *)

Ltac entry_order :=
  first [ exact reminder_ltb_irrefl | exact reminder_ltb_trans
        | exact reminder_ltb_antisym | exact project_ltb_irrefl
        | exact project_ltb_trans | exact project_ltb_antisym
        | assumption ].

Lemma reminders_add_heap q x ts :
  is_heap_from reminder_ltb 0 q ->
  is_heap_from reminder_ltb 0 (ReminderQueue.add q x ts).
Proof.
  intros Hq. apply heappush_heap;
    entry_order.
Qed.

Lemma reminders_remove_heap q x ts :
  is_heap_from reminder_ltb 0 (ReminderQueue.remove q x ts).
Proof.
  apply heapify_heap;
    entry_order.
Qed.

Lemma projects_add_heap q nm s e :
  is_heap_from project_ltb 0 q ->
  is_heap_from project_ltb 0 (ProjectQueue.add q nm s e).
Proof.
  intros Hq. apply heappush_heap;
    entry_order.
Qed.

Lemma projects_remove_heap q nm s :
  is_heap_from project_ltb 0 (ProjectQueue.remove q nm s).
Proof.
  apply heapify_heap;
    entry_order.
Qed.

Lemma reminders_remove_absent q x ts :
  is_heap_from reminder_ltb 0 q ->
  (forall r, r ∈ map reminder_row (ReminderQueue.get_all q) ->
             reminder_matches x ts r = false) ->
  ReminderQueue.remove q x ts = q.
Proof.
  intros Hq Habs. unfold ReminderQueue.remove.
  rewrite filter_all.
  - apply heapify_id;
      entry_order.
  - intros e He. apply negb_true_iff.
    apply (Habs (reminder_row e)), list_elem_of_fmap.
    exists e. split; [reflexivity|].
    unfold ReminderQueue.get_all. rewrite sorted_Permutation. assumption.
Qed.

Lemma projects_remove_absent q nm s :
  is_heap_from project_ltb 0 q ->
  (forall r, r ∈ map project_row (ProjectQueue.get_all q) ->
             project_matches nm s r = false) ->
  ProjectQueue.remove q nm s = q.
Proof.
  intros Hq Habs. unfold ProjectQueue.remove.
  rewrite filter_all.
  - apply heapify_id;
      entry_order.
  - intros e He. apply negb_true_iff.
    apply (Habs (project_row e)), list_elem_of_fmap.
    exists e. split; [reflexivity|].
    unfold ProjectQueue.get_all. rewrite sorted_Permutation. assumption.
Qed.

Lemma heaps_ok_new : heaps_ok new_manager.
Proof. split; intros i c _ _ x y Hx; inversion Hx. Qed.

Lemma do_POST_heaps_ok (ucd : CaseData) (data : Request) (m : DataManager) :
  heaps_ok m -> heaps_ok (fst (do_POST ucd data m)).
Proof.
  intros [Hr Hp]. run_dispatch; simpl; split; simpl;
    auto using reminders_add_heap, reminders_remove_heap,
               projects_add_heap, projects_remove_heap.
Qed.

Lemma serve_heaps_ok (ucd : CaseData) (reqs : list Request) :
  forall m, heaps_ok m -> heaps_ok (serve ucd reqs m).
Proof.
  induction reqs as [|r reqs IH]; simpl; intros m H; [assumption|].
  apply IH, do_POST_heaps_ok, H.
Qed.

(** X10: after any requests, deleting a reminder that is not among the
    rows changes nothing. *)
Lemma delete_absent_reminder (ucd : CaseData) (reqs : list Request)
    (x : str) (ts : Z) :
  let m := serve ucd reqs new_manager in
  (forall r, r ∈ data_reminders (get_data m) ->
             reminder_matches x ts r = false) ->
  do_POST ucd (delete_reminder x ts) m = (m, Returned (get_data m)).
Proof.
  intros m Habs.
  destruct (serve_heaps_ok ucd reqs new_manager heaps_ok_new) as [Hr _].
  fold m in Hr. cbv [do_POST dispatch bind]. simpl.
  unfold update, with_reminders, read.
  rewrite (reminders_remove_absent _ _ _ Hr Habs).
  destruct m; reflexivity.
Qed.

(** X11: the same for a project. *)
Lemma delete_absent_project (ucd : CaseData) (reqs : list Request)
    (nm s : str) :
  let m := serve ucd reqs new_manager in
  (forall r, r ∈ data_projects (get_data m) ->
             project_matches nm s r = false) ->
  do_POST ucd (delete_project nm s) m = (m, Returned (get_data m)).
Proof.
  intros m Habs.
  destruct (serve_heaps_ok ucd reqs new_manager heaps_ok_new) as [_ Hp].
  fold m in Hp. cbv [do_POST dispatch bind]. simpl.
  unfold update, with_projects, read.
  rewrite (projects_remove_absent _ _ _ Hp Habs).
  destruct m; reflexivity.
Qed.

(** ** [delete]: where it agrees with the other methods *)

Section DeleteCharwise.
Variable ucd : CaseData.

(** X7: when lowering [nm] character by character gives [nm.lower()],
    [delete] empties that key and no other. *)
Lemma delete_when_charwise (calls : list TrieCall) (nm : str) :
  let t := trie_after ucd calls in
  delete_path ucd nm = Some (lower ucd nm) ->
  (forall nm', ContactTrie.search ucd (ContactTrie.delete ucd t nm) nm' =
               if str_eqb (lower ucd nm') (lower ucd nm) then None
               else ContactTrie.search ucd t nm')
  /\ (forall c, c ∈ ContactTrie.get_all_sorted (ContactTrie.delete ucd t nm)
                <-> c ∈ ContactTrie.get_all_sorted t /\
                    folded ucd c <> lower ucd nm).
Proof.
  intros t Hpath.
  assert (Hwf : wf_node ucd [] t) by apply wf_trie_after.
  assert (Hwf' : wf_node ucd [] (ContactTrie.delete ucd t nm))
    by apply wf_delete, Hwf.
  assert (Hs : forall nm',
    ContactTrie.search ucd (ContactTrie.delete ucd t nm) nm' =
    if str_eqb (lower ucd nm') (lower ucd nm) then None
    else ContactTrie.search ucd t nm').
  { intros nm'. unfold ContactTrie.search, ContactTrie.delete.
    rewrite (search_delete ucd nm [] t _ Hwf), Hpath.
    destruct (decide (Some (lower ucd nm) = Some (lower ucd nm')))
      as [[= E]|E].
    - rewrite E, str_eqb_refl. reflexivity.
    - replace (str_eqb (lower ucd nm') (lower ucd nm)) with false;
        [reflexivity|].
      symmetry. apply str_eqb_neq. congruence. }
  split; [exact Hs|]. intros c.
  rewrite (listed_iff_stored ucd _ c Hwf'), (listed_iff_stored ucd t c Hwf).
  rewrite Hs. unfold folded.
  destruct (str_eqb (lower ucd (name c)) (lower ucd nm)) eqn:E.
  - apply str_eqb_eq in E. split; [discriminate|]. intros [_ H]. congruence.
  - apply str_eqb_neq in E. tauto.
Qed.

End DeleteCharwise.




(** The end-to-end scenario: add "Jo", then delete "JO". *)
Example jo_then_JO :
  let m1 := serve unicode_rows
              [add_contact (lit "Jo") (lit "555") (lit "jo@x.com")]
              new_manager in
  let m2 := serve unicode_rows [delete_contact (lit "JO")] m1 in
  data_contacts (get_data m1)
  = [{| name := lit "Jo"; phone := lit "555"; email := lit "jo@x.com" |}]
  /\ data_contacts (get_data m2) = [].
Proof. vm_compute. split; reflexivity. Qed.

(** ** [delete]: where it departs from them *)

(** C1 (the code departs from it): a contact added under the one-letter
    name U+0130 and then deleted under the very same name is still stored
    and still listed. *)
Theorem delete_misses_dotted_capital_I :
  let nm := [0x130] in
  let c := {| name := nm; phone := lit "555"; email := lit "i@x.com" |} in
  let m := serve unicode_rows
             [add_contact nm (lit "555") (lit "i@x.com"); delete_contact nm]
             new_manager in
  lower unicode_rows nm = [0x69; 0x307]
  /\ delete_path unicode_rows nm = None
  /\ ContactTrie.search unicode_rows (contacts m) nm = Some c
  /\ data_contacts (get_data m) = [c].
Proof. vm_compute. repeat split. Qed.

(** C6 (the code departs from it): with one contact stored under the
    Greek name alpha-sigma, the capitalised name lowers to
    alpha-final-sigma, a key that is not in the store; deleting it
    nevertheless changes [get_data]. *)
Theorem delete_absent_key_changes_data :
  let stored := [0x3B1; 0x3C3] in
  let asked := [0x391; 0x3A3] in
  let m := serve unicode_rows
             [add_contact stored (lit "555") (lit "a@x.com")] new_manager in
  let m' := fst (do_POST unicode_rows (delete_contact asked) m) in
  ContactTrie.search unicode_rows (contacts m) asked = None
  /\ data_contacts (get_data m)
     = [{| name := stored; phone := lit "555"; email := lit "a@x.com" |}]
  /\ data_contacts (get_data m') = []
  /\ get_data m' <> get_data m.
Proof. vm_compute. repeat split. discriminate. Qed.

(** C9 (the code departs from it): deleting the capitalised Greek name,
    whose lowered form differs from the lowered name of the stored
    contact, removes that contact from [search], [search_prefix] and
    [get_all_sorted]. *)
Theorem delete_disturbs_other_contact :
  let other := [0x3B1; 0x3C3] in
  let deleted := [0x391; 0x3A3] in
  let c := {| name := other; phone := lit "555"; email := lit "a@x.com" |} in
  let t := ContactTrie.insert unicode_rows empty_node
             other (lit "555") (lit "a@x.com") in
  let t' := ContactTrie.delete unicode_rows t deleted in
  str_eqb (folded unicode_rows c) (lower unicode_rows deleted) = false
  /\ ContactTrie.search unicode_rows t other = Some c
  /\ ContactTrie.search unicode_rows t' other = None
  /\ ContactTrie.search_prefix unicode_rows t' [] = []
  /\ ContactTrie.get_all_sorted t' = [].
Proof. vm_compute. repeat split. Qed.

(** * Further properties of the code *)

(** ** The trie has no dead branches *)

Lemma dict_set_set {V} (k : N) (v v' : V) (d : list (N * V)) :
  dict_set k v' (dict_set k v d) = dict_set k v' d.
Proof.
  induction d as [|[k0 v0] d IH]; simpl.
  - rewrite N.eqb_refl. reflexivity.
  - destruct (k =? k0) eqn:E; simpl; rewrite E; [reflexivity|].
    rewrite IH. reflexivity.
Qed.

Lemma dict_del_set_fresh {V} (k : N) (v : V) (d : list (N * V)) :
  dict_get k d = None -> dict_del k (dict_set k v d) = d.
Proof.
  induction d as [|[k0 v0] d IH]; simpl.
  - rewrite N.eqb_refl. reflexivity.
  - destruct (k =? k0) eqn:E; [discriminate|]. simpl. rewrite E.
    intros H. rewrite IH by assumption. reflexivity.
Qed.

Lemma dict_set_not_nil {V} (k : N) (v : V) (d : list (N * V)) :
  dict_set k v d <> [].
Proof. destruct d as [|[k0 v0] d]; simpl; [|destruct (k =? k0)]; discriminate. Qed.

Lemma is_empty_true (n : TrieNode) : is_empty n = true <-> n = empty_node.
Proof.
  destruct n as [[c|] [|x ch]]; unfold is_empty, empty_node; simpl;
    split; congruence.
Qed.

Lemma pruned_empty : pruned empty_node.
Proof. constructor; intros k n H; inversion H. Qed.

Lemma pruned_child c ch k n :
  pruned (Node c ch) -> dict_get k ch = Some n ->
  n <> empty_node /\ pruned n.
Proof.
  intros Hp Hk. apply dict_get_Some_elem in Hk. inversion Hp; subst. eauto.
Qed.

Section Pruning.
Variable ucd : CaseData.

Lemma insert_path_not_empty p n c :
  ContactTrie.insert_path n p c <> empty_node.
Proof.
  destruct p as [|k p]; simpl; [discriminate|].
  intros [= _ H]. exact (dict_set_not_nil _ _ _ H).
Qed.

Lemma pruned_insert_path p : forall n c,
  pruned n -> pruned (ContactTrie.insert_path n p c).
Proof.
  induction p as [|k p IH]; intros [c0 ch] c Hp; simpl.
  - inversion Hp; subst. constructor; assumption.
  - inversion Hp as [? ? Hne Hch]; subst.
    assert (Hnew : pruned (ContactTrie.insert_path
              match dict_get k ch with Some n => n | None => empty_node end
              p c)).
    { apply IH. destruct (dict_get k ch) eqn:E; [|apply pruned_empty].
      apply (pruned_child _ _ _ _ Hp E). }
    constructor; intros k' n' Hin;
      apply dict_set_elem in Hin as [[-> ->]|Hin]; eauto.
    apply insert_path_not_empty.
Qed.

Lemma pruned_delete nm : forall n,
  pruned n ->
  pruned (fst (ContactTrie._delete ucd n nm)) /\
  (snd (ContactTrie._delete ucd n nm) = false -> n <> empty_node ->
   fst (ContactTrie._delete ucd n nm) <> empty_node).
Proof.
  induction nm as [|c nm IH]; intros [c0 ch] Hp; simpl.
  - inversion Hp; subst. destruct c0; simpl.
    + split; [constructor; assumption|].
      intros Hf _. destruct ch; [discriminate|]. discriminate.
    + split; [assumption|auto].
  - unfold ContactTrie.child_of.
    destruct (lower ucd [c]) as [|k [|? ?]]; simpl;
      [split; auto| |split; auto].
    destruct (dict_get k ch) as [child|] eqn:Hk; simpl; [|split; auto].
    destruct (pruned_child _ _ _ _ Hp Hk) as [Hcne Hcp].
    destruct (IH child Hcp) as [IH1 IH2].
    destruct (ContactTrie._delete ucd child nm) as [child' b].
    simpl in IH1, IH2. inversion Hp as [? ? Hne Hch]; subst.
    destruct b; simpl.
    + split.
      * constructor; intros k' n' Hin; apply dict_del_elem in Hin; eauto.
      * intros Hf _ [= E1 E2]. rewrite E2, E1 in Hf. discriminate.
    + split.
      * constructor; intros k' n' Hin;
          apply dict_set_elem in Hin as [[-> ->]|Hin]; eauto.
      * intros _ _ [= _ E]. exact (dict_set_not_nil _ _ _ E).
Qed.

Lemma pruned_trie_call t c : pruned t -> pruned (trie_call ucd t c).
Proof.
  destruct c; simpl; intros H.
  - apply pruned_insert_path, H.
  - apply pruned_delete, H.
Qed.

Lemma pruned_trie_after calls : pruned (trie_after ucd calls).
Proof.
  unfold trie_after. generalize pruned_empty. generalize empty_node as t.
  induction calls as [|c calls IH]; simpl; intros t H; [assumption|].
  apply IH, pruned_trie_call, H.
Qed.

(** A node that is not empty lists at least one contact. *)
Lemma traverse_not_nil n :
  pruned n -> n <> empty_node -> ContactTrie._traverse n <> [].
Proof.
  induction 1 as [c ch Hne Hch IH]. intros Hn.
  rewrite _traverse_Node. destruct c as [c|]; [discriminate|].
  destruct ch as [|[k0 n0] ch]; [destruct Hn; reflexivity|].
  assert (Hin : (k0, n0) ∈ (k0, n0) :: ch) by left.
  specialize (IH k0 n0 Hin (Hne k0 n0 Hin)).
  destruct (ContactTrie._traverse n0) as [|x l] eqn:E; [congruence|].
  simpl. intros Hnil.
  assert (Hx : x ∈ flat_map (block ((k0, n0) :: ch))
                    (sorted_keys ((k0, n0) :: ch))).
  { apply elem_of_blocks. exists k0, n0. split.
    - simpl. rewrite N.eqb_refl. reflexivity.
    - rewrite E. left. }
  rewrite Hnil in Hx. inversion Hx.
Qed.
End Pruning.

(** X1: in every trie the calls can build no node below the root is
    empty, and the trie lists no contact exactly when it is the empty
    root again. *)
Theorem no_dead_branches (ucd : CaseData) (calls : list TrieCall) :
  let t := trie_after ucd calls in
  pruned t /\ (ContactTrie.get_all_sorted t = [] <-> t = empty_node).
Proof.
  intros t. assert (Hp : pruned t) by apply pruned_trie_after.
  split; [assumption|]. split.
  - intros Hnil. destruct (decide (is_empty t = true)) as [E|E].
    + apply is_empty_true, E.
    + destruct (traverse_not_nil t Hp); [|assumption].
      intros Ht. apply E, is_empty_true, Ht.
  - intros ->. reflexivity.
Qed.

(** ** How [insert] and [delete] compose *)

Section InsertDelete.
Variable ucd : CaseData.

(** Deleting along the path just inserted gives back the node, with the
    flag [_delete] returns telling whether the node is empty. *)
Lemma delete_insert_path nm : forall p n c,
  delete_path ucd nm = Some p -> pruned n ->
  ContactTrie.search_path n p = None ->
  ContactTrie._delete ucd (ContactTrie.insert_path n p c) nm
  = (n, is_empty n).
Proof.
  induction nm as [|c0 nm IH]; intros p [c1 ch] c Hpath Hp Habs.
  - injection Hpath as <-. simpl in *. subst c1.
    unfold is_empty. simpl. rewrite andb_true_r. reflexivity.
  - cbn [delete_path] in Hpath.
    destruct (lower ucd [c0]) as [|k [|? ?]] eqn:Hc; try discriminate.
    destruct (delete_path ucd nm) as [p'|] eqn:Hp'; [|discriminate].
    injection Hpath as <-.
    cbn [ContactTrie.insert_path ContactTrie._delete children contact].
    rewrite Hc. unfold ContactTrie.child_of.
    cbn [children contact]. rewrite dict_get_set_eq.
    simpl in Habs. destruct (dict_get k ch) as [child|] eqn:Hk.
    + destruct (pruned_child _ _ _ _ Hp Hk) as [Hne Hcp].
      rewrite (IH p' child c eq_refl Hcp Habs).
      replace (is_empty child) with false.
      * rewrite dict_set_set, (dict_set_same _ _ _ Hk).
        f_equal. unfold is_empty. simpl.
        destruct ch; [discriminate|reflexivity].
      * symmetry. destruct (is_empty child) eqn:E; [|reflexivity].
        apply is_empty_true in E. contradiction.
    + rewrite (IH p' empty_node c eq_refl pruned_empty
                 (search_path_empty p')).
      replace (is_empty empty_node) with true by reflexivity.
      rewrite (dict_del_set_fresh _ _ _ Hk). reflexivity.
Qed.

Lemma insert_path_twice p : forall n c c',
  ContactTrie.insert_path (ContactTrie.insert_path n p c) p c'
  = ContactTrie.insert_path n p c'.
Proof.
  induction p as [|k p IH]; intros [c0 ch] c c'; simpl; [reflexivity|].
  rewrite dict_get_set_eq, dict_set_set, IH. reflexivity.
Qed.

(** The listing is a function of the lookups. *)
Lemma listing_by_lookups t1 t2 :
  wf_node ucd [] t1 -> wf_node ucd [] t2 ->
  (forall p, ContactTrie.search_path t1 p = ContactTrie.search_path t2 p) ->
  ContactTrie.get_all_sorted t1 = ContactTrie.get_all_sorted t2.
Proof.
  intros H1 H2 Hsame. unfold ContactTrie.get_all_sorted.
  pose proof (traverse_sorted ucd [] t1 H1) as S1.
  pose proof (traverse_sorted ucd [] t2 H2) as S2.
  eapply StronglySorted_unique_strong; [|exact S1|exact S2|].
  - intros x1 x2 _ _ Ha Hb. simpl in Ha, Hb.
    rewrite (str_ltb_asym _ _ Ha) in Hb. discriminate.
  - apply NoDup_Permutation.
    + apply (NoDup_fmap_1 (folded ucd)), StronglySorted_lt_NoDup, S1.
    + apply (NoDup_fmap_1 (folded ucd)), StronglySorted_lt_NoDup, S2.
    + intros x. split; intros Hx.
      * destruct (traverse_sound ucd [] t1 H1 x Hx) as [s [_ Hs]].
        rewrite Hsame in Hs. apply (traverse_complete ucd [] t2 H2 s x Hs).
      * destruct (traverse_sound ucd [] t2 H2 x Hx) as [s [_ Hs]].
        rewrite <- Hsame in Hs.
        apply (traverse_complete ucd [] t1 H1 s x Hs).
Qed.
End InsertDelete.

(** X2: in a trie the calls can build, inserting a contact under a name
    that is not stored and then deleting it under a name that lowers,
    character by character, to the same string gives back the very same
    trie: the branch the insert grew is pruned again. *)
Theorem delete_undoes_insert (ucd : CaseData) (calls : list TrieCall)
    (nm nm' ph em : str) :
  let t := trie_after ucd calls in
  delete_path ucd nm' = Some (lower ucd nm) ->
  ContactTrie.search ucd t nm = None ->
  ContactTrie.delete ucd (ContactTrie.insert ucd t nm ph em) nm' = t.
Proof.
  intros t Hpath Habs. unfold ContactTrie.delete, ContactTrie.insert.
  rewrite (delete_insert_path ucd nm' (lower ucd nm) t _ Hpath);
    [reflexivity|apply pruned_trie_after|exact Habs].
Qed.

(** "Jo" goes into a trie that holds "Al" and comes out as "JO". *)
Lemma delete_undoes_insert_witness :
  ContactTrie.delete unicode_rows
    (ContactTrie.insert unicode_rows
       (trie_after unicode_rows [CallInsert (lit "Al") (lit "1") (lit "a")])
       (lit "Jo") (lit "555") (lit "jo@x.com"))
    (lit "JO")
  = trie_after unicode_rows [CallInsert (lit "Al") (lit "1") (lit "a")].
Proof.
  apply (delete_undoes_insert unicode_rows
           [CallInsert (lit "Al") (lit "1") (lit "a")]
           (lit "Jo") (lit "JO") (lit "555") (lit "jo@x.com"));
    reflexivity.
Defined.

(** X3: deleting the same name a second time changes nothing, whatever
    the name. *)
Theorem delete_twice (ucd : CaseData) (calls : list TrieCall) (nm : str) :
  let t := trie_after ucd calls in
  ContactTrie.delete ucd (ContactTrie.delete ucd t nm) nm
  = ContactTrie.delete ucd t nm.
Proof.
  intros t. unfold ContactTrie.delete at 1.
  rewrite _delete_absent; [reflexivity|].
  intros q Hq. unfold ContactTrie.delete.
  rewrite (search_delete ucd nm [] t q (wf_trie_after ucd calls)).
  rewrite decide_True by assumption. reflexivity.
Qed.

(** X4: [search] returns only what an [insert] call stored: the record
    of a call in the sequence, whose name lowers like the name asked
    for. *)
Theorem search_finds_inserted (ucd : CaseData) (calls : list TrieCall)
    (nm : str) (c : Contact) :
  ContactTrie.search ucd (trie_after ucd calls) nm = Some c ->
  CallInsert (name c) (phone c) (email c) ∈ calls
  /\ folded ucd c = lower ucd nm.
Proof.
  induction calls as [|x calls IH] using rev_ind.
  - unfold ContactTrie.search. rewrite search_path_empty. discriminate.
  - unfold trie_after. rewrite foldl_app. simpl. fold (trie_after ucd calls).
    destruct x as [n0 p0 e0|n0]; simpl.
    + rewrite search_insert.
      destruct (str_eqb (lower ucd nm) (lower ucd n0)) eqn:E.
      * apply str_eqb_eq in E. intros [= <-]. simpl. split; [|auto].
        apply elem_of_app. right. left.
      * intros H. destruct (IH H) as [Hin Hk].
        split; [apply elem_of_app; left|]; assumption.
    + unfold ContactTrie.search, ContactTrie.delete.
      rewrite (search_delete ucd n0 [] _ _ (wf_trie_after ucd calls)).
      destruct (decide _); [discriminate|].
      intros H. destruct (IH H) as [Hin Hk].
      split; [apply elem_of_app; left|]; assumption.
Qed.

Lemma search_finds_inserted_witness :
  CallInsert (lit "Jo") (lit "555") (lit "jo@x.com")
    ∈ [CallInsert (lit "Jo") (lit "555") (lit "jo@x.com")]
  /\ folded unicode_rows
       {| name := lit "Jo"; phone := lit "555"; email := lit "jo@x.com" |}
     = lower unicode_rows (lit "JO").
Proof.
  apply (search_finds_inserted unicode_rows
           [CallInsert (lit "Jo") (lit "555") (lit "jo@x.com")] (lit "JO")
           {| name := lit "Jo"; phone := lit "555";
              email := lit "jo@x.com" |}).
  reflexivity.
Defined.

(** X5: an insert under a name that lowers like the name of the insert
    before it replaces that insert altogether: the trie is the one the
    second insert alone would give. *)
Theorem insert_overwrites (ucd : CaseData) (t : TrieNode)
    (nm ph em nm' ph' em' : str) :
  lower ucd nm = lower ucd nm' ->
  ContactTrie.insert ucd (ContactTrie.insert ucd t nm ph em) nm' ph' em'
  = ContactTrie.insert ucd t nm' ph' em'.
Proof.
  intros E. unfold ContactTrie.insert. rewrite E. apply insert_path_twice.
Qed.

Lemma insert_overwrites_witness :
  ContactTrie.insert unicode_rows
    (ContactTrie.insert unicode_rows empty_node
       (lit "Ann") (lit "1") (lit "a@x"))
    (lit "ANN") (lit "2") (lit "b@x")
  = ContactTrie.insert unicode_rows empty_node
      (lit "ANN") (lit "2") (lit "b@x").
Proof.
  apply (insert_overwrites unicode_rows empty_node
           (lit "Ann") (lit "1") (lit "a@x")
           (lit "ANN") (lit "2") (lit "b@x")).
  reflexivity.
Defined.

(** X6: two inserts under names that lower differently can be swapped:
    [search], [get_all_sorted] and [search_prefix] cannot tell the two
    orders apart. *)
Theorem inserts_commute (ucd : CaseData) (calls : list TrieCall)
    (a pa ea b pb eb : str) :
  str_eqb (lower ucd a) (lower ucd b) = false ->
  let t := trie_after ucd calls in
  let t1 := ContactTrie.insert ucd (ContactTrie.insert ucd t a pa ea)
              b pb eb in
  let t2 := ContactTrie.insert ucd (ContactTrie.insert ucd t b pb eb)
              a pa ea in
  (forall nm, ContactTrie.search ucd t1 nm = ContactTrie.search ucd t2 nm)
  /\ ContactTrie.get_all_sorted t1 = ContactTrie.get_all_sorted t2
  /\ (forall prefix, ContactTrie.search_prefix ucd t1 prefix
                     = ContactTrie.search_prefix ucd t2 prefix).
Proof.
  intros Hne t t1 t2. apply str_eqb_neq in Hne.
  assert (Hwf : wf_node ucd [] t) by apply wf_trie_after.
  assert (H1 : wf_node ucd [] t1) by (do 2 apply wf_insert; assumption).
  assert (H2 : wf_node ucd [] t2) by (do 2 apply wf_insert; assumption).
  assert (Hsame : forall p, ContactTrie.search_path t1 p
                            = ContactTrie.search_path t2 p).
  { intros p. unfold t1, t2, ContactTrie.insert.
    rewrite !search_insert_path.
    destruct (decide (p = lower ucd b)) as [Eb|Hb];
      destruct (decide (p = lower ucd a)) as [Ea|Ha];
      try reflexivity. congruence. }
  assert (Hall : ContactTrie.get_all_sorted t1
                 = ContactTrie.get_all_sorted t2)
    by (apply (listing_by_lookups ucd); assumption).
  split; [|split].
  - intros nm. apply Hsame.
  - exact Hall.
  - intros prefix. rewrite !search_prefix_filter by assumption.
    rewrite Hall. reflexivity.
Qed.

Lemma inserts_commute_witness :
  let t1 := ContactTrie.insert unicode_rows
              (ContactTrie.insert unicode_rows (trie_after unicode_rows [])
                 (lit "Bob") (lit "1") (lit "b@x"))
              (lit "Al") (lit "2") (lit "a@x") in
  let t2 := ContactTrie.insert unicode_rows
              (ContactTrie.insert unicode_rows (trie_after unicode_rows [])
                 (lit "Al") (lit "2") (lit "a@x"))
              (lit "Bob") (lit "1") (lit "b@x") in
  (forall nm, ContactTrie.search unicode_rows t1 nm
              = ContactTrie.search unicode_rows t2 nm)
  /\ ContactTrie.get_all_sorted t1 = ContactTrie.get_all_sorted t2
  /\ (forall prefix, ContactTrie.search_prefix unicode_rows t1 prefix
                     = ContactTrie.search_prefix unicode_rows t2 prefix).
Proof.
  apply (inserts_commute unicode_rows []
           (lit "Bob") (lit "1") (lit "b@x")
           (lit "Al") (lit "2") (lit "a@x")).
  reflexivity.
Defined.

Lemma delete_when_charwise_witness :
  let t := trie_after unicode_rows
             [CallInsert (lit "Jo") (lit "555") (lit "jo@x.com")] in
  (forall nm',
      ContactTrie.search unicode_rows
        (ContactTrie.delete unicode_rows t (lit "JO")) nm' =
      if str_eqb (lower unicode_rows nm') (lower unicode_rows (lit "JO"))
      then None else ContactTrie.search unicode_rows t nm')
  /\ (forall c,
         c ∈ ContactTrie.get_all_sorted
               (ContactTrie.delete unicode_rows t (lit "JO"))
         <-> c ∈ ContactTrie.get_all_sorted t /\
             folded unicode_rows c <> lower unicode_rows (lit "JO")).
Proof.
  apply (delete_when_charwise unicode_rows
           [CallInsert (lit "Jo") (lit "555") (lit "jo@x.com")] (lit "JO")).
  reflexivity.
Defined.




Lemma delete_absent_reminder_witness :
  let m := serve unicode_rows [add_reminder (lit "Call") 5%Z] new_manager in
  do_POST unicode_rows (delete_reminder (lit "Mail") 5%Z) m
  = (m, Returned (get_data m)).
Proof.
  apply (delete_absent_reminder unicode_rows
           [add_reminder (lit "Call") 5%Z] (lit "Mail") 5%Z).
  intros r Hr. apply list_elem_of_In in Hr. vm_compute in Hr.
  destruct Hr as [<-|[]]. reflexivity.
Defined.

Lemma delete_absent_project_witness :
  let m := serve unicode_rows
             [add_project (lit "Site") (lit "2024-01-01") (lit "2024-03-01")]
             new_manager in
  do_POST unicode_rows (delete_project (lit "Site") (lit "2024-02-01")) m
  = (m, Returned (get_data m)).
Proof.
  apply (delete_absent_project unicode_rows
           [add_project (lit "Site") (lit "2024-01-01") (lit "2024-03-01")]
           (lit "Site") (lit "2024-02-01")).
  intros r Hr. apply list_elem_of_In in Hr. vm_compute in Hr.
  destruct Hr as [<-|[]]. reflexivity.
Defined.

(** ** The queues *)

Section HeapRoot.
Context {A : Type} (ltb : A -> A -> bool).
Hypothesis ltb_irrefl : forall a, ltb a a = false.
Hypothesis ltb_trans :
  forall a b c, ltb a b = true -> ltb b c = true -> ltb a c = true.
Hypothesis ltb_antisym :
  forall a b, ltb a b = false -> ltb b a = false -> a = b.

(** In a heap nothing is below the first element. *)
Lemma heap_root_least (h : list A) (r : A) :
  is_heap_from ltb 0 h -> h !! 0%nat = Some r ->
  forall j x, h !! j = Some x -> ltb x r = false.
Proof using ltb_irrefl ltb_trans ltb_antisym.
  intros Hh Hr j. induction j as [j IH] using lt_wf_ind. intros x Hx.
  destruct j as [|j].
  - rewrite Hr in Hx. injection Hx as <-. apply ltb_irrefl.
  - assert (Hpar : ((S j - 1) / 2 < S j)%nat)
      by (apply Nat.Div0.div_lt_upper_bound; lia).
    destruct (lookup_lt_is_Some_2 h ((S j - 1) / 2)) as [y Hy].
    { apply lookup_lt_Some in Hx. lia. }
    apply (le_trans ltb ltb_trans ltb_antisym r y x).
    + apply (IH _ Hpar y Hy).
    + apply (Hh ((S j - 1) / 2)%nat (S j) ltac:(lia)
               (parent_child (S j) ltac:(lia)) y x Hy Hx).
Qed.
End HeapRoot.

(** X12: after any requests both queues are heaps in the sense of
    [heapq], the invariant [heappush] relies on; so the first entry of
    each list is a least one, an earliest reminder and an earliest
    project. *)
Theorem queues_stay_heaps (ucd : CaseData) (reqs : list Request) :
  let m := serve ucd reqs new_manager in
  heaps_ok m
  /\ (forall r e, reminders m !! 0%nat = Some r -> e ∈ reminders m ->
                  reminder_ltb e r = false)
  /\ (forall r e, projects m !! 0%nat = Some r -> e ∈ projects m ->
                  project_ltb e r = false).
Proof.
  intros m.
  assert (H : heaps_ok m) by apply serve_heaps_ok, heaps_ok_new.
  split; [assumption|]. destruct H as [Hr Hp]. split.
  - intros r e H0 He. apply list_elem_of_lookup in He as [j Hj].
    apply (heap_root_least reminder_ltb reminder_ltb_irrefl
             reminder_ltb_trans reminder_ltb_antisym _ r Hr H0 j e Hj).
  - intros r e H0 He. apply list_elem_of_lookup in He as [j Hj].
    apply (heap_root_least project_ltb project_ltb_irrefl
             project_ltb_trans project_ltb_antisym _ r Hp H0 j e Hj).
Qed.

(** X13: removing the same pair a second time changes nothing, for any
    list a queue may hold. *)
Theorem remove_twice (q : ReminderQueue.t) (x : str) (ts : Z)
    (p : ProjectQueue.t) (nm s : str) :
  ReminderQueue.remove (ReminderQueue.remove q x ts) x ts
  = ReminderQueue.remove q x ts
  /\ ProjectQueue.remove (ProjectQueue.remove p nm s) nm s
     = ProjectQueue.remove p nm s.
Proof.
  split.
  - apply reminders_remove_absent; [apply reminders_remove_heap|].
    intros r Hr. rewrite reminders_remove_rows in Hr.
    apply list_elem_of_In, filter_In in Hr as [_ Hr].
    apply negb_true_iff, Hr.
  - apply projects_remove_absent; [apply projects_remove_heap|].
    intros r Hr. rewrite projects_remove_rows in Hr.
    apply list_elem_of_In, filter_In in Hr as [_ Hr].
    apply negb_true_iff, Hr.
Qed.

(** X14: from any state, [add_project] adds one row and nothing else,
    and [delete_project] leaves, up to order, exactly the rows whose name
    or start differ from the pair given; rows that agree on both go
    whatever their end. *)
Theorem project_rows (ucd : CaseData) (m : DataManager) (nm s e : str) :
  data_projects (get_data (serve ucd [add_project nm s e] m))
  ≡ₚ {| project_name := nm; start := s; end_ := e |}
       :: data_projects (get_data m)
  /\ data_projects (get_data (serve ucd [delete_project nm s] m))
     ≡ₚ List.filter (fun r => negb (project_matches nm s r))
          (data_projects (get_data m)).
Proof.
  assert (E1 : serve ucd [add_project nm s e] m
               = with_projects (fun q => ProjectQueue.add q nm s e) m)
    by reflexivity.
  assert (E2 : serve ucd [delete_project nm s] m
               = with_projects (fun q => ProjectQueue.remove q nm s) m)
    by reflexivity.
  rewrite E1, E2. cbn [get_data data_projects with_projects projects].
  split; [apply projects_add_rows|apply projects_remove_rows].
Qed.

(** ** The handlers *)






(** ** The requests as a history *)

Lemma is_action_true (a : option str) (tag : string) :
  is_action a tag = true -> a = Some (lit tag).
Proof.
  destruct a as [s|]; simpl; [|discriminate].
  intros H. apply str_eqb_eq in H. congruence.
Qed.

Ltac tag_clash :=
  match goal with
  | H : is_action ?a _ = true, H' : is_action ?a _ = true |- _ =>
      apply is_action_true in H; rewrite H in H';
      vm_compute in H'; discriminate H'
  end.

Lemma reminder_log_ok (ucd : CaseData) (data : Request) (m : DataManager)
    (rows : list ReminderRow) :
  data_reminders (get_data m) ≡ₚ rows ->
  data_reminders (get_data (fst (do_POST ucd data m)))
  ≡ₚ reminder_log_step rows data.
Proof.
  intros Hrows. unfold reminder_log_step.
  run_dispatch; try tag_clash; simpl;
    repeat match goal with
           | |- context [match ?f data with _ => _ end] =>
               destruct (f data)
           end;
    try assumption.
  - rewrite reminders_add_rows. constructor. assumption.
  - rewrite reminders_remove_rows. apply Permutation_filter. assumption.
Qed.

Lemma project_log_ok (ucd : CaseData) (data : Request) (m : DataManager)
    (rows : list ProjectRow) :
  data_projects (get_data m) ≡ₚ rows ->
  data_projects (get_data (fst (do_POST ucd data m)))
  ≡ₚ project_log_step rows data.
Proof.
  intros Hrows. unfold project_log_step.
  run_dispatch; try tag_clash; simpl;
    repeat match goal with
           | |- context [match ?f data with _ => _ end] =>
               destruct (f data)
           end;
    try assumption.
  - rewrite projects_add_rows. constructor. assumption.
  - rewrite projects_remove_rows. apply Permutation_filter. assumption.
Qed.

(** X18: after any requests the rows of the two queues are, up to order,
    the rows the history of adds and deletes leaves: nothing is lost,
    invented or duplicated by the heaps. *)
Theorem rows_follow_the_log (ucd : CaseData) (reqs : list Request) :
  let m := serve ucd reqs new_manager in
  data_reminders (get_data m) ≡ₚ foldl reminder_log_step [] reqs
  /\ data_projects (get_data m) ≡ₚ foldl project_log_step [] reqs.
Proof.
  intros m. unfold m, serve. split.
  - assert (H0 : data_reminders (get_data new_manager) ≡ₚ []) by reflexivity.
    revert H0. generalize (@nil ReminderRow) as rows.
    generalize new_manager as m0.
    induction reqs as [|r reqs IH]; intros m0 rows H; simpl; [assumption|].
    apply IH, reminder_log_ok, H.
  - assert (H0 : data_projects (get_data new_manager) ≡ₚ []) by reflexivity.
    revert H0. generalize (@nil ProjectRow) as rows.
    generalize new_manager as m0.
    induction reqs as [|r reqs IH]; intros m0 rows H; simpl; [assumption|].
    apply IH, project_log_ok, H.
Qed.

Lemma ineffective_noop (ucd : CaseData) (data : Request) (m : DataManager) :
  effective data = false -> fst (do_POST ucd data m) = m.
Proof.
  unfold effective, recognized, missing_field, required_fields, operations.
  simpl. intros H.
  run_dispatch; cbn in H;
    repeat match goal with
           | E : ?x = _, H' : context [?x] |- _ => rewrite E in H'; cbn in H'
           end;
    try discriminate; reflexivity.
Qed.

(** X19: requests that raise and requests with an unknown tag leave no
    trace: the manager after a history is the manager after the same
    history without them. *)
Theorem ineffective_requests_drop (ucd : CaseData) (reqs : list Request)
    (m : DataManager) :
  serve ucd reqs m = serve ucd (List.filter effective reqs) m.
Proof.
  revert m. induction reqs as [|r reqs IH]; intros m; simpl; [reflexivity|].
  destruct (effective r) eqn:E; simpl.
  - apply IH.
  - rewrite (ineffective_noop ucd r m E). apply IH.
Qed.
